(** * Streamly: the catalog store, its seeding and its views

    A shallow embedding of [src/app.js].  JavaScript values coming from
    [catalog.json] are an inductive type, the browser services the script
    calls (IndexedDB, [fetch], [Date.now]) are the fields of a class, and the
    asynchronous functions run in a state-and-exception monad over the
    script's globals, the object store and the two DOM regions it writes. *)

From Stdlib Require Import List String Ascii Bool Arith NArith ZArith Lia.
From Stdlib Require Import DecimalString DecimalN.
From Stdlib Require Import Permutation Sorted.
Import ListNotations.
Local Open Scope string_scope.
Set Warnings "-register-all".

(** ** Strings

    A string is its sequence of code units; the model takes the code units
    below 256 (Latin-1), on which [toLowerCase], [trim] and the regular
    expression of the script act unit by unit. *)

Definition code (c : ascii) : N := N_of_ascii c.

Definition between (lo hi : N) (c : ascii) : bool :=
  ((lo <=? code c) && (code c <=? hi))%N.

(** Upper-case letters below 256 are A-Z and U+00C0..U+00DE without the
    multiplication sign U+00D7; each has its lower-case form 32 above. *)
Definition lowerChar (c : ascii) : ascii :=
  if between 65 90 c || (between 192 222 c && negb (code c =? 215)%N)
  then ascii_of_N (code c + 32)
  else c.

Fixpoint toLowerCase (s : string) : string :=
  match s with
  | EmptyString => EmptyString
  | String c r => String (lowerChar c) (toLowerCase r)
  end.

(** White space and line terminators below 256: TAB, LF, VT, FF, CR, SP and
    the no-break space. *)
Definition isWhiteSpace (c : ascii) : bool :=
  between 9 13 c || (code c =? 32)%N || (code c =? 160)%N.

Fixpoint trimStart (s : string) : string :=
  match s with
  | EmptyString => EmptyString
  | String c r => if isWhiteSpace c then trimStart r else s
  end.

Fixpoint trimEnd (s : string) : string :=
  match s with
  | EmptyString => EmptyString
  | String c r =>
      match trimEnd r with
      | EmptyString => if isWhiteSpace c then EmptyString else String c EmptyString
      | t => String c t
      end
  end.

Definition trim (s : string) : string := trimEnd (trimStart s).

(** The class [[a-z0-9]] of the id regular expression. *)
Definition isSlugChar (c : ascii) : bool := between 97 122 c || between 48 57 c.

(** [s.replace(/[^a-z0-9]+/g, '-')]: [inRun] tells that the unit before
    belongs to a run that already produced its dash. *)
Fixpoint replaceRuns (inRun : bool) (s : string) : string :=
  match s with
  | EmptyString => EmptyString
  | String c r =>
      if isSlugChar c then String c (replaceRuns false r)
      else if inRun then replaceRuns true r
      else String "-" (replaceRuns true r)
  end.

Definition slug (s : string) : string := replaceRuns false s.

(** [s.includes(q)] *)
Fixpoint includes (s q : string) : bool :=
  prefix q s ||
  match s with
  | EmptyString => false
  | String _ r => includes r q
  end.

(** The decimal digits of a natural number, as a template literal prints
    the integer [Date.now()] returns. *)
Definition decimal (n : N) : string := NilEmpty.string_of_uint (N.to_uint n).

(** ** Values *)

(** What the script observes of a number: its truth value and its printed
    form. *)
Class JSNumber := {
  Num : Type;
  num_truthy : Num -> bool;
  num_toString : Num -> string
}.

Inductive Exn :=
| TypeError
| FetchRejected
| CatalogNotFound
| SyntaxError
| IDBError (name : string).

Section Values.
Context `{JSNumber}.

Inductive value :=
| VUndef
| VNull
| VBool (b : bool)
| VNum (n : Num)
| VStr (s : string)
| VArr (l : list value)
| VObj (o : list (string * value)).

(** ToBoolean *)
Definition truthy (v : value) : bool :=
  match v with
  | VUndef | VNull => false
  | VBool b => b
  | VNum n => num_truthy n
  | VStr s => negb (s =? "")
  | VArr _ | VObj _ => true
  end.

(** [a || b] *)
Definition orElse (a b : value) : value := if truthy a then a else b.

(** Own property of a parsed JSON object. *)
Fixpoint ownProp (name : string) (o : list (string * value)) : option value :=
  match o with
  | [] => None
  | (k, v) :: r => if k =? name then Some v else ownProp name r
  end.

(** [v.name] for the property names the script reads, none of which is on
    a built-in prototype: reading from [null] or [undefined] throws, an
    object gives its own property, everything else gives [undefined]. *)
Definition getProp (v : value) (name : string) : Exn + value :=
  match v with
  | VUndef | VNull => inl TypeError
  | VObj o => inr (match ownProp name o with Some x => x | None => VUndef end)
  | _ => inr VUndef
  end.

(** ToString, as string concatenation, template literals and property keys
    apply it.  An object prints through [Object.prototype.toString] unless it
    has an own [toString], which parsed JSON cannot make callable: then the
    conversion throws ([None]).  An array joins its elements with commas,
    [null] and [undefined] elements printing as nothing. *)
Fixpoint toStr (v : value) : option string :=
  match v with
  | VUndef => Some "undefined"
  | VNull => Some "null"
  | VBool true => Some "true"
  | VBool false => Some "false"
  | VNum n => Some (num_toString n)
  | VStr s => Some s
  | VArr l =>
      (fix join (l : list value) : option string :=
         match l with
         | [] => Some ""
         | x :: r =>
             let e := match x with
                      | VUndef | VNull => Some ""
                      | _ => toStr x
                      end in
             match e, r with
             | None, _ => None
             | Some a, [] => Some a
             | Some a, _ :: _ =>
                 match join r with
                 | Some b => Some (a ++ "," ++ b)
                 | None => None
                 end
             end
         end) l
  | VObj o =>
      match ownProp "toString" o with
      | Some _ => None
      | None => Some "[object Object]"
      end
  end.

Definition coerce (v : value) : Exn + string :=
  match toStr v with
  | Some s => inr s
  | None => inl TypeError
  end.

(** ** Items *)

Record Item := mkItem {
  id : value;
  title : value;
  year : value;
  description : value;
  poster : value;
  category : value;
  themeColor : value;
  sources : value
}.

End Values.

(** ** The browser services and the script's state *)

Arguments value {_}.
Arguments Item {_}.

Inductive FetchOutcome `{JSNumber} :=
| FetchFails                      (* the promise of [fetch] rejects *)
| ResponseNotOk                   (* [res.ok] is false *)
| BodyNotJson                     (* [res.json()] rejects *)
| Parsed (catalog : value).

(** IndexedDB's object store ['items'] (key path ['id']), the clock and the
    network.  A request on the store answers with its result or its error and
    leaves the store in a new state; [now k] is what the [k]-th call of
    [Date.now()] returns and [fetchCatalog k] how the [k]-th fetch of
    [catalog.json] ends. *)
Class Host `{JSNumber} := {
  Store : Type;
  idb_put : Item -> Store -> (Exn + unit) * Store;
  idb_getAll : Store -> (Exn + list Item) * Store;
  now : nat -> N;
  fetchCatalog : nat -> FetchOutcome
}.

Section Script.
Context `{Host}.

Inductive Event :=
| EvFetch
| EvPut (item : Item)
| EvGetAll
| EvWarn (err : Exn).

(** One card of a row track: the empty card, or the card of an item with
    its border style, the [alt] and [src] of its image, the three texts of
    its [meta] block and the item its click handler plays. *)
Inductive Card :=
| EmptyCard
| ItemCard (border : option string) (alt src : string)
           (metaTitle metaYear metaCategory : string) (target : Item).

Record Row := mkRow { heading : string; track : list Card }.

(** A child of the element [#rows]. *)
Inductive RowsChild :=
| NoContentMessage
| RowSection (r : Row).

Record HeroDom := mkHero {
  heroTitle : string;
  heroDesc : string;
  heroPoster : string;
  heroAccent : string;
  heroTarget : option Item
}.

Record World := mkWorld {
  store : Store;
  itemsCache : list Item;
  clock : nat;                    (* calls of [Date.now()] so far *)
  fetches : nat;                  (* calls of [fetch] so far *)
  trace : list Event;             (* requests and warnings, oldest first *)
  heroEl : HeroDom;
  rowsEl : list RowsChild
}.

Definition withStore (s : Store) (w : World) : World :=
  mkWorld s (itemsCache w) (clock w) (fetches w) (trace w) (heroEl w) (rowsEl w).
Definition withCache (c : list Item) (w : World) : World :=
  mkWorld (store w) c (clock w) (fetches w) (trace w) (heroEl w) (rowsEl w).
Definition tick (w : World) : World :=
  mkWorld (store w) (itemsCache w) (S (clock w)) (fetches w) (trace w) (heroEl w) (rowsEl w).
Definition fetched (w : World) : World :=
  mkWorld (store w) (itemsCache w) (clock w) (S (fetches w)) (trace w) (heroEl w) (rowsEl w).
Definition logged (e : Event) (w : World) : World :=
  mkWorld (store w) (itemsCache w) (clock w) (fetches w) (trace w ++ [e]) (heroEl w) (rowsEl w).
Definition withHero (h : HeroDom) (w : World) : World :=
  mkWorld (store w) (itemsCache w) (clock w) (fetches w) (trace w) h (rowsEl w).
Definition withRows (r : list RowsChild) (w : World) : World :=
  mkWorld (store w) (itemsCache w) (clock w) (fetches w) (trace w) (heroEl w) r.

(** A computation of the script: it ends with a value or a thrown
    exception, and what it did to the world before throwing stays done. *)
Definition M (A : Type) : Type := World -> (Exn + A) * World.

Definition ret {A} (a : A) : M A := fun w => (inr a, w).
Definition throw {A} (e : Exn) : M A := fun w => (inl e, w).
Definition bind {A B} (m : M A) (k : A -> M B) : M B :=
  fun w => match m w with
           | (inr a, w') => k a w'
           | (inl e, w') => (inl e, w')
           end.
Definition tryCatch {A} (m : M A) (handler : Exn -> M A) : M A :=
  fun w => match m w with
           | (inl e, w') => handler e w'
           | r => r
           end.
Definition lift {A} (r : Exn + A) : M A := fun w => (r, w).
Definition modify (f : World -> World) : M unit := fun w => (inr tt, f w).
Definition gets {A} (f : World -> A) : M A := fun w => (inr (f w), w).

Notation "x <- m ;; k" := (bind m (fun x => k))
  (at level 61, m at next level, right associativity).
Notation "m ;;; k" := (bind m (fun _ => k))
  (at level 61, right associativity).

(** *** IndexedDB helpers

    The script passes the one store name [ITEMS_STORE] to both helpers. *)

Definition idbPut (item : Item) : M unit :=
  fun w => let (r, s) := idb_put item (store w) in
           (r, withStore s (logged (EvPut item) w)).

Definition idbGetAll : M (list Item) :=
  fun w => let (r, s) := idb_getAll (store w) in
           (r, withStore s (logged EvGetAll w)).

Definition dateNow : M N := fun w => (inr (now (clock w)), tick w).

Definition consoleWarn (err : Exn) : M unit := modify (logged (EvWarn err)).

(** *** App logic *)

Definition loadItems : M unit :=
  items <- idbGetAll ;;
  modify (withCache items).

(** [await fetch('catalog.json')], the [res.ok] test and [await res.json()] *)
Definition fetchJson : M value :=
  fun w => let w' := fetched (logged EvFetch w) in
           match fetchCatalog (fetches w) with
           | FetchFails => (inl FetchRejected, w')
           | ResponseNotOk => (inl CatalogNotFound, w')
           | BodyNotJson => (inl SyntaxError, w')
           | Parsed catalog => (inr catalog, w')
           end.

(** What [for (const it of catalog)] iterates: the elements of an array,
    the one-unit strings of a string; any other JSON value is not iterable. *)
Definition iterate (catalog : value) : Exn + list value :=
  match catalog with
  | VArr l => inr l
  | VStr s => inr (map (fun c => VStr (String c EmptyString)) (list_ascii_of_string s))
  | _ => inl TypeError
  end.

(** [it.title.toLowerCase()]: only a string has the method. *)
Definition callToLowerCase (v : value) : Exn + string :=
  match v with
  | VStr s => inr (toLowerCase s)
  | _ => inl TypeError
  end.

(** The body of the seeding loop up to the [put] (lines 73-83). *)
Definition normalizeRecord (it : value) : M Item :=
  rawId <- lift (getProp it "id") ;;
  newId <- (if truthy rawId then ret rawId
            else rawTitle <- lift (getProp it "title") ;;
                 if truthy rawTitle
                 then low <- lift (callToLowerCase rawTitle) ;;
                      t <- dateNow ;;
                      ret (VStr (slug low ++ "-" ++ decimal t))
                 else t <- dateNow ;;
                      ret (VStr ("item-" ++ decimal t))) ;;
  rawTitle <- lift (getProp it "title") ;;
  rawYear <- lift (getProp it "year") ;;
  rawDescription <- lift (getProp it "description") ;;
  rawPoster <- lift (getProp it "poster") ;;
  rawCategory <- lift (getProp it "category") ;;
  rawThemeColor <- lift (getProp it "themeColor") ;;
  rawSources <- lift (getProp it "sources") ;;
  rawSource <- lift (getProp it "source") ;;
  ret {| id := newId;
         title := orElse rawTitle (VStr "Untitled");
         year := rawYear;
         description := orElse rawDescription (VStr "");
         poster := orElse rawPoster (VStr "");
         category := orElse rawCategory (VStr "Uncategorized");
         themeColor := orElse rawThemeColor VNull;
         sources := orElse rawSources
                      (if truthy rawSource then VArr [rawSource] else VArr []) |}.

Fixpoint seedLoop (records : list value) : M unit :=
  match records with
  | [] => ret tt
  | it :: rest =>
      item <- normalizeRecord it ;;
      idbPut item ;;;
      seedLoop rest
  end.

Definition seedFromCatalogIfEmpty : M unit :=
  cache <- gets itemsCache ;;
  match cache with
  | _ :: _ => ret tt
  | [] =>
      tryCatch
        (catalog <- fetchJson ;;
         records <- lift (iterate catalog) ;;
         seedLoop records ;;;
         loadItems)
        (fun err => consoleWarn err)
  end.

(** *** Grouping *)

(** The object [groupItems] builds: its own properties in insertion order. *)
Definition Groups : Type := list (string * list Item).

Fixpoint ownGroup (key : string) (g : Groups) : option (list Item) :=
  match g with
  | [] => None
  | (k, l) :: r => if k =? key then Some l else ownGroup key r
  end.

(** [acc[key].push(item)] on an own property *)
Fixpoint pushTo (key : string) (item : Item) (g : Groups) : Groups :=
  match g with
  | [] => []
  | (k, l) :: r =>
      if k =? key then (k, (l ++ [item])%list) :: r else (k, l) :: pushTo key item r
  end.

(** The properties every object literal inherits from [Object.prototype]:
    [acc[cat]] is truthy for them although [acc] has no such group. *)
Definition objectPrototypeKeys : list string :=
  [ "constructor"; "__proto__"; "hasOwnProperty"; "isPrototypeOf";
    "propertyIsEnumerable"; "toLocaleString"; "toString"; "valueOf";
    "__defineGetter__"; "__defineSetter__"; "__lookupGetter__";
    "__lookupSetter__" ].

Definition inherited (key : string) : bool :=
  existsb (String.eqb key) objectPrototypeKeys.

(** The callback of [reduce]: an inherited property has no [push], so
    calling it throws. *)
Definition groupStep (acc : Groups) (item : Item) : Exn + Groups :=
  let cat := orElse (category item) (VStr "Featured") in
  match coerce cat with
  | inl e => inl e
  | inr key =>
      match ownGroup key acc with
      | Some _ => inr (pushTo key item acc)
      | None =>
          if inherited key then inl TypeError
          else inr (acc ++ [(key, [item])])%list
      end
  end.

Fixpoint groupItemsFrom (acc : Groups) (items : list Item) : Exn + Groups :=
  match items with
  | [] => inr acc
  | item :: rest =>
      match groupStep acc item with
      | inl e => inl e
      | inr acc' => groupItemsFrom acc' rest
      end
  end.

Definition groupItems (items : list Item) : Exn + Groups :=
  groupItemsFrom [] items.

(** A key that is an array index: the canonical decimal form of an integer
    below 2^32 - 1. *)
Definition arrayIndex (key : string) : option N :=
  match NilEmpty.uint_of_string key with
  | Some d =>
      let n := N.of_uint d in
      if (decimal n =? key) && (n <? 4294967295)%N then Some n else None
  | None => None
  end.

Fixpoint insertIndex (n : N) (key : string) (l : list (N * string))
  : list (N * string) :=
  match l with
  | [] => [(n, key)]
  | (m, k) :: r =>
      if (n <=? m)%N then (n, key) :: l else (m, k) :: insertIndex n key r
  end.

(** [Object.keys]: array indices in ascending order, then the other keys
    in insertion order. *)
Definition objectKeys (g : Groups) : list string :=
  let keys := map fst g in
  let indices :=
    fold_right (fun k acc => match arrayIndex k with
                             | Some n => insertIndex n k acc
                             | None => acc
                             end) [] keys in
  map snd indices ++
  filter (fun k => match arrayIndex k with Some _ => false | None => true end) keys.

(** *** Hero *)

Definition noContentHero : Item :=
  {| id := VUndef;
     title := VStr "No content";
     year := VUndef;
     description := VStr "Add items via catalog.json in the repository";
     poster := VStr "";
     category := VUndef;
     themeColor := VStr "#e50914";
     sources := VUndef |}.

Definition pickHero (cache : list Item) : Item :=
  match cache with
  | [] => noContentHero
  | first :: _ =>
      match find (fun i => truthy (themeColor i)) cache with
      | Some themed => themed
      | None => first
      end
  end.

Definition renderHero (item : Item) : M unit :=
  t <- lift (coerce (orElse (title item) (VStr "No content"))) ;;
  modify (fun w => withHero (mkHero t (heroDesc (heroEl w)) (heroPoster (heroEl w))
                               (heroAccent (heroEl w)) (heroTarget (heroEl w))) w) ;;;
  d <- lift (coerce (orElse (description item) (VStr ""))) ;;
  modify (fun w => withHero (mkHero (heroTitle (heroEl w)) d (heroPoster (heroEl w))
                               (heroAccent (heroEl w)) (heroTarget (heroEl w))) w) ;;;
  p <- lift (coerce (orElse (poster item) (VStr ""))) ;;
  modify (fun w => withHero (mkHero (heroTitle (heroEl w)) (heroDesc (heroEl w)) p
                               (heroAccent (heroEl w)) (heroTarget (heroEl w))) w) ;;;
  c <- lift (coerce (orElse (themeColor item) (VStr "#e50914"))) ;;
  modify (fun w => withHero (mkHero (heroTitle (heroEl w)) (heroDesc (heroEl w))
                               (heroPoster (heroEl w)) c (Some item)) w).

(** *** Rows *)

Definition CARDS_PER_ROW : nat := 8.

(** [for (let i = 0; i < toAdd; i++) raw.push(null)] *)
Fixpoint pushNulls (toAdd : nat) (raw : list (option Item)) : list (option Item) :=
  match toAdd with
  | 0 => raw
  | S k => pushNulls k (raw ++ [None])
  end.

(** Lines 142-147: the copy of the group, padded. *)
Definition padRaw (group : list Item) : list (option Item) :=
  let raw := map Some group in
  let remainder := List.length raw mod CARDS_PER_ROW in
  if (remainder =? 0)%nat then raw else pushNulls (CARDS_PER_ROW - remainder) raw.

(** [l.slice(start, stop)] for indices that are not negative *)
Definition slice {A} (start stop : nat) (l : list A) : list A :=
  skipn start (firstn stop l).

(** The callback of [chunk.forEach] up to [track.appendChild].  The
    three texts of the [meta] block are the strings that line 182
    interpolates into the markup it assigns to [innerHTML]; what the page
    makes of that markup when it parses it is not modelled. *)
Definition makeCard (slot : option Item) : Exn + Card :=
  match slot with
  | None => inr EmptyCard
  | Some item =>
      match (if truthy (themeColor item)
             then match coerce (themeColor item) with
                  | inr c => inr (Some ("2px solid " ++ c))
                  | inl e => inl e
                  end
             else inr None),
            coerce (title item),
            coerce (orElse (poster item) (VStr "")),
            coerce (orElse (year item) (VStr "")),
            coerce (orElse (category item) (VStr "")) with
      | inr border, inr t, inr src, inr y, inr c =>
          inr (ItemCard border (t ++ " poster") src t y c item)
      | _, _, _, _, _ => inl TypeError
      end
  end.

Fixpoint makeCards (chunk : list (option Item)) : Exn + list Card :=
  match chunk with
  | [] => inr []
  | slot :: rest =>
      match makeCard slot with
      | inl e => inl e
      | inr card =>
          match makeCards rest with
          | inl e => inl e
          | inr cards => inr (card :: cards)
          end
      end
  end.

Definition appendRow (r : Row) (w : World) : World :=
  withRows (rowsEl w ++ [RowSection r]) w.

(** The loop over [start] (lines 149-198).  It runs at most once per slot
    of [raw], which is the fuel [renderCategories] gives it. *)
Fixpoint rowLoop (fuel : nat) (cat : string) (raw : list (option Item))
    (start : nat) : M unit :=
  match fuel with
  | 0 => ret tt
  | S fuel' =>
      if (start <? List.length raw)%nat then
        cards <- lift (makeCards (slice start (start + CARDS_PER_ROW) raw)) ;;
        modify (appendRow {| heading := cat ++ (if (0 <? start)%nat then " (more)" else "");
                             track := cards |}) ;;;
        rowLoop fuel' cat raw (start + CARDS_PER_ROW)
      else ret tt
  end.

Fixpoint renderCategories (grouped : Groups) (keys : list string) : M unit :=
  match keys with
  | [] => ret tt
  | cat :: rest =>
      match ownGroup cat grouped with
      | None => throw TypeError
      | Some group =>
          let raw := padRaw group in
          rowLoop (List.length raw) cat raw 0 ;;;
          renderCategories grouped rest
      end
  end.

Definition renderRows (grouped : Groups) : M unit :=
  modify (withRows []) ;;;
  match objectKeys grouped with
  | [] => modify (withRows [NoContentMessage])
  | keys => renderCategories grouped keys
  end.

Definition renderAll : M unit :=
  cache <- gets itemsCache ;;
  renderHero (pickHero cache) ;;;
  grouped <- lift (groupItems cache) ;;
  renderRows grouped.

(** *** Search *)

(** [i.title + ' ' + (i.description||'') + ' ' + (i.category||'')] *)
Definition searchText (i : Item) : Exn + string :=
  match coerce (title i),
        coerce (orElse (description i) (VStr "")),
        coerce (orElse (category i) (VStr "")) with
  | inr t, inr d, inr c => inr (t ++ " " ++ d ++ " " ++ c)
  | _, _, _ => inl TypeError
  end.

(** [itemsCache.filter(...)] with the callback of line 248 *)
Fixpoint filterItems (q : string) (items : list Item) : Exn + list Item :=
  match items with
  | [] => inr []
  | i :: rest =>
      match searchText i with
      | inl e => inl e
      | inr text =>
          match filterItems q rest with
          | inl e => inl e
          | inr kept =>
              inr (if includes (toLowerCase text) q then i :: kept else kept)
          end
      end
  end.

(** [onSearch], given the text of the search box *)
Definition onSearch (input : string) : M unit :=
  let q := trim (toLowerCase input) in
  if q =? "" then renderAll
  else
    cache <- gets itemsCache ;;
    filtered <- lift (filterItems q cache) ;;
    grouped <- lift (groupItems filtered) ;;
    renderRows grouped.

(** [init] once [openDb] has resolved; [setupUI] only installs listeners. *)
Definition init : M unit :=
  loadItems ;;;
  seedFromCatalogIfEmpty ;;;
  renderAll.

(** *** What the statements below observe *)

(** [it.name] where reading cannot throw *)
Definition propOf (it : value) (name : string) : value :=
  match getProp it name with
  | inr v => v
  | inl _ => VUndef
  end.

(** The object literal of lines 74-83 for a record whose properties can be
    read, given the id computed on line 73. *)
Definition itemOf (newId : value) (it : value) : Item :=
  {| id := newId;
     title := orElse (propOf it "title") (VStr "Untitled");
     year := propOf it "year";
     description := orElse (propOf it "description") (VStr "");
     poster := orElse (propOf it "poster") (VStr "");
     category := orElse (propOf it "category") (VStr "Uncategorized");
     themeColor := orElse (propOf it "themeColor") VNull;
     sources := orElse (propOf it "sources")
                  (if truthy (propOf it "source")
                   then VArr [propOf it "source"] else VArr []) |}.

Definition isString (v : value) : bool :=
  match v with
  | VStr _ => true
  | _ => false
  end.

(** The records line 73 can work on: not [null], and with a title that is
    a string whenever the title is what the id is derived from. *)
Definition normalizable (it : value) : bool :=
  match getProp it "id" with
  | inl _ => false
  | inr rawId =>
      truthy rawId || negb (truthy (propOf it "title")) || isString (propOf it "title")
  end.

(** The records whose id line 73 derives. *)
Definition lacksId (it : value) : bool := negb (truthy (propOf it "id")).

Definition putItems (events : list Event) : list Item :=
  flat_map (fun e => match e with EvPut item => [item] | _ => [] end) events.

Definition isRequest (e : Event) : bool :=
  match e with
  | EvFetch | EvPut _ => true
  | _ => false
  end.

(** A theme color as line 81 leaves it: [null] or truthy. *)
Definition themeOk (i : Item) : Prop :=
  themeColor i = VNull \/ truthy (themeColor i) = true.

Definition cardSlot (c : Card) : option Item :=
  match c with
  | EmptyCard => None
  | ItemCard _ _ _ _ _ _ target => Some target
  end.

Definition rowSlots (r : Row) : list (option Item) := map cardSlot (track r).

Definition realItems (slots : list (option Item)) : list Item :=
  flat_map (fun s => match s with Some i => [i] | None => [] end) slots.

Definition shownItems (children : list RowsChild) : list Item :=
  flat_map (fun c => match c with
                     | RowSection r => realItems (rowSlots r)
                     | NoContentMessage => []
                     end) children.

(** The values of [start] the loop of [rowLoop] goes through. *)
Fixpoint starts (fuel start len : nat) : list nat :=
  match fuel with
  | 0 => []
  | S fuel' =>
      if (start <? len)%nat then start :: starts fuel' (start + CARDS_PER_ROW) len
      else []
  end.

(** The key [groupItems] files an item under. *)
Definition keyOf (item : Item) : Exn + string :=
  coerce (orElse (category item) (VStr "Featured")).

(** Every member of a group has the key of the group. *)
Definition keyed (g : Groups) : Prop :=
  forall k l x, ownGroup k g = Some l -> In x l -> keyOf x = inr k.

(** The item sits in the group of its key. *)
Definition filed (x : Item) (g : Groups) : Prop :=
  exists k l, keyOf x = inr k /\ ownGroup k g = Some l /\ In x l.

(** The row the loop of [rowLoop] appends for a value of [start]. *)
Definition rowAt (cat : string) (raw : list (option Item)) (start : nat)
    (row : Row) : Prop :=
  heading row = cat ++ (if (0 <? start)%nat then " (more)" else "") /\
  makeCards (slice start (start + CARDS_PER_ROW) raw) = inr (track row).

(** The rows of one category with [n] items, for the row width 8:
    ceil(n/8) rows of 8 slots, all rows before the last made of the items in
    order, the last row made of the remaining [n mod 8] items (8 of them
    when [n mod 8] is 0) and then of placeholders up to 8.  The width is
    written out here; that [CARDS_PER_ROW] yields it is what is proved. *)
Definition paginated (group : list Item) (block : list Row) : Prop :=
  let n := List.length group in
  let m := if (n mod 8 =? 0)%nat then 8 else n mod 8 in
  List.length block = (n + 7) / 8 /\
  forall j row,
    nth_error block j = Some row ->
    List.length (rowSlots row) = 8 /\
    (j + 1 < List.length block ->
     rowSlots row = map Some (slice (j * 8) (j * 8 + 8) group)) /\
    (j + 1 = List.length block ->
     List.length (skipn (j * 8) group) = m /\
     rowSlots row =
       (map Some (skipn (j * 8) group) ++ repeat None (8 - m))%list).

(** The rows that [renderCategories] appends for a key when nothing
    throws. *)
Definition renderedBlock (grouped : Groups) (cat : string) (block : list Row)
  : Prop :=
  exists group,
    ownGroup cat grouped = Some group /\
    Forall2 (rowAt cat (padRaw group))
      (starts (List.length (padRaw group)) 0 (List.length (padRaw group))) block.

(** The row sections among the children of [#rows]. *)
Definition sections (children : list RowsChild) : list Row :=
  flat_map (fun c => match c with
                     | RowSection r => [r]
                     | NoContentMessage => []
                     end) children.

(** The code unit [c] is one of those of [s]. *)
Fixpoint hasChar (c : ascii) (s : string) : bool :=
  match s with
  | EmptyString => false
  | String x r => Ascii.eqb x c || hasChar c r
  end.

(** Two worlds that differ at most by what is displayed. *)
Definition sameData (w w' : World) : Prop :=
  store w' = store w /\ itemsCache w' = itemsCache w /\
  clock w' = clock w /\ fetches w' = fetches w /\ trace w' = trace w.

(** How many of the first [k] records have their id derived, that is how
    many clock readings the loop took before it reached record [k]. *)
Definition derivedBefore (k : nat) (records : list value) : nat :=
  List.length (filter lacksId (firstn k records)).

(** An item whose card can be built: the texts the card shows are all
    convertible to strings. *)
Definition printable (item : Item) : Prop :=
  exists card, makeCard (Some item) = inr card.

(** [q] occurs in [s] *)
Definition occursIn (q s : string) : Prop :=
  exists before after, s = before ++ q ++ after.

End Script.

(** ** A reference host

    Integers for numbers, and an object store that keeps its records in key
    order, replaces a record whose key is already there and rejects a record
    whose [id] is not a valid key with a [DataError], as IndexedDB does.
    An integer prints by its digits, as JavaScript prints the integers below
    10^21; the sessions below use no larger number. *)

Definition printZ (z : Z) : string :=
  match z with
  | Z0 => "0"
  | Zpos p => decimal (Npos p)
  | Zneg p => "-" ++ decimal (Npos p)
  end.

Definition intNumber : JSNumber :=
  {| Num := Z; num_truthy := fun z => negb (z =? 0)%Z; num_toString := printZ |}.

Section ReferenceStore.
Context `{JSNumber}.
Variable num_compare : Num -> Num -> comparison.

Fixpoint validKey (v : value) : bool :=
  match v with
  | VNum _ | VStr _ => true
  | VArr l => forallb validKey l
  | _ => false
  end.

(** Keys compare as IndexedDB compares them: numbers before strings before
    arrays, arrays element by element. *)
Fixpoint keyCompare (a b : value) {struct a} : comparison :=
  match a, b with
  | VNum x, VNum y => num_compare x y
  | VNum _, _ => Lt
  | VStr _, VNum _ => Gt
  | VStr x, VStr y => String.compare x y
  | VStr _, _ => Lt
  | VArr l, VArr m =>
      (fix cmp (l m : list value) {struct l} : comparison :=
         match l, m with
         | [], [] => Eq
         | [], _ :: _ => Lt
         | _ :: _, [] => Gt
         | x :: r, y :: s =>
             match keyCompare x y with
             | Eq => cmp r s
             | c => c
             end
         end) l m
  | VArr _, _ => Gt
  | _, _ => Eq
  end.

Fixpoint upsert (item : Item) (records : list Item) : list Item :=
  match records with
  | [] => [item]
  | r :: rest =>
      match keyCompare (id item) (id r) with
      | Lt => item :: records
      | Eq => item :: rest
      | Gt => r :: upsert item rest
      end
  end.

Definition refPut (item : Item) (records : list Item)
  : (Exn + unit) * list Item :=
  if validKey (id item) then (inr tt, upsert item records)
  else (inl (IDBError "DataError"), records).

Definition refGetAll (records : list Item) : (Exn + list Item) * list Item :=
  (inr records, records).

End ReferenceStore.

Definition refHost (clockReadings : nat -> N)
    (fetchOutcomes : nat -> @FetchOutcome intNumber) : @Host intNumber :=
  {| Store := list (@Item intNumber);
     idb_put := @refPut intNumber Z.compare;
     idb_getAll := @refGetAll intNumber;
     now := clockReadings;
     fetchCatalog := fetchOutcomes |}.

(** ** Sample sessions on the reference host *)

(** A clock that advances between two readings, and one read twice within
    the same millisecond. *)
Definition tickingClock (k : nat) : N := (1700000000000 + N.of_nat k)%N.


Definition serves (catalog : @value intNumber) (k : nat) : @FetchOutcome intNumber :=
  Parsed catalog.

Definition num (z : Z) : @value intNumber := @VNum intNumber z.

Definition blankHero : @HeroDom intNumber := mkHero "" "" "" "" None.

(** A first visit: nothing stored, nothing cached, nothing rendered. *)
Definition firstVisit (h : @Host intNumber) (s : @Store intNumber h)
  : @World intNumber h :=
  mkWorld s [] 0 0 [] blankHero [].

Definition film (key name kind : string) (color : @value intNumber)
  : @Item intNumber :=
  {| id := VStr key; title := VStr name; year := num 1999;
     description := VStr ""; poster := VStr ""; category := VStr kind;
     themeColor := color; sources := VArr [] |}.

(** The hosts of the sessions: what [catalog.json] holds and how the clock
    runs. *)
Definition quietHost : @Host intNumber := refHost tickingClock (serves (VArr [])).

Definition alphaHost : @Host intNumber :=
  refHost tickingClock (serves (VArr [VObj [("title", VStr "Alpha")]])).

(** The second record has the id [true], which is not a valid key. *)
Definition badKeyHost : @Host intNumber :=
  refHost tickingClock
    (serves (VArr [VObj [("title", VStr "Alpha")];
                   VObj [("id", VBool true)];
                   VObj [("id", VStr "b")]])).

(** The second record is [null]. *)
Definition nullRecordHost : @Host intNumber :=
  refHost tickingClock (serves (VArr [VObj [("title", VStr "Alpha")]; VNull])).

(** Two records without id or title. *)
Definition twinsHost (clockReadings : nat -> N) : @Host intNumber :=
  refHost clockReadings (serves (VArr [VObj []; VObj []])).

(** A session in which [cache] is stored and loaded. *)
Definition browsing (cache : list (@Item intNumber)) : @World intNumber quietHost :=
  mkWorld (cache : @Store intNumber quietHost) cache 0 0 [] blankHero [].

Definition dramas (n : nat) : list (@Item intNumber) :=
  map (fun k => film (decimal (N.of_nat k)) "Film" "Drama" VNull) (seq 0 n).

Definition alphaBeta : @Item intNumber :=
  {| id := VStr "ab"; title := VStr "Alpha"; year := VUndef;
     description := VStr "Beta"; poster := VStr ""; category := VStr "Greek";
     themeColor := VNull; sources := VArr [] |}.

Definition uncategorized : @Item intNumber :=
  {| id := VStr "u1"; title := VStr "Loose"; year := VUndef;
     description := VStr ""; poster := VStr ""; category := VStr "";
     themeColor := VNull; sources := VArr [] |}.

(** Records of the sample catalogs and the items they become. *)
Definition alphaRecord : @value intNumber := VObj [("title", VStr "Alpha")].
Definition badKeyRecord : @value intNumber := VObj [("id", VBool true)].

Definition alphaAt (reading : string) : @Item intNumber :=
  itemOf (VStr ("alpha-" ++ reading)) alphaRecord.
Definition badKeyItem : @Item intNumber := itemOf (VBool true) badKeyRecord.

(** More sample data: a fetch that fails, a store that cannot be read, a
    cache of three films in two categories. *)
Definition offlineHost : @Host intNumber := refHost tickingClock (fun _ => FetchFails).

Definition unreadableHost : @Host intNumber :=
  {| Store := list (@Item intNumber);
     idb_put := @refPut intNumber Z.compare;
     idb_getAll := fun records => (inl (IDBError "UnknownError"), records);
     now := tickingClock;
     fetchCatalog := serves (VArr []) |}.

Definition threeFilms : list (@Item intNumber) :=
  [film "f1" "Heat" "Crime" VNull; film "f2" "Alien" "Horror" VNull;
   film "f3" "Ronin" "Crime" VNull].

Definition legacyRecord : @value intNumber :=
  VObj [("id", VStr "v1"); ("title", VStr "Alpha");
        ("source", VObj [("url", VStr "alpha.mp4")])].

(** ** The player

    [openPlayer], [closeModal] and the handlers that call them write the
    modal, its video element and the alert boxes, none of which the rest of
    the script reads: they have a state of their own. *)

Section Player.
Context `{JSNumber}.

Record Player := mkPlayer {
  modalHidden : bool;               (* the class [hidden] of [#player-modal] *)
  ariaHidden : bool;                (* its attribute [aria-hidden] *)
  modalTitle : string;
  modalMeta : string * string * string;   (* year, category, description *)
  videoSrc : string;
  videoPlaying : bool;
  currentPlayUrl : option string;
  revoked : list string;            (* arguments of [URL.revokeObjectURL] *)
  alerts : list string              (* messages of [alert], oldest first *)
}.

Definition alert (message : string) (p : Player) : Player :=
  mkPlayer (modalHidden p) (ariaHidden p) (modalTitle p) (modalMeta p)
    (videoSrc p) (videoPlaying p) (currentPlayUrl p) (revoked p)
    (alerts p ++ [message]).

(** [if (currentPlayUrl) { URL.revokeObjectURL(currentPlayUrl); currentPlayUrl = null; }]:
    a URL is a string, truthy unless empty. *)
Definition revokeCurrent (p : Player) : Player :=
  match currentPlayUrl p with
  | Some url =>
      if url =? "" then p
      else mkPlayer (modalHidden p) (ariaHidden p) (modalTitle p) (modalMeta p)
             (videoSrc p) (videoPlaying p) None (revoked p ++ [url]) (alerts p)
  | None => p
  end.

(** Whether [v.length] is truthy, for a truthy [v]. *)
Definition lengthTruthy (v : value) : bool :=
  match v with
  | VArr l => negb (List.length l =? 0)%nat
  | VStr s => negb (s =? "")
  | VObj o => match ownProp "length" o with
              | Some n => truthy n
              | None => false
              end
  | _ => false
  end.

(** [v[0]] *)
Definition firstOf (v : value) : value :=
  match v with
  | VArr l => hd VUndef l
  | VStr (String c _) => VStr (String c EmptyString)
  | VObj o => match ownProp "0" o with
              | Some x => x
              | None => VUndef
              end
  | _ => VUndef
  end.

(** What assigning [v] to [innerText] displays: [null] shows as nothing. *)
Definition innerTextOf (v : value) : Exn + string :=
  match v with
  | VNull => inr ""
  | _ => coerce v
  end.

(** [item.sources && item.sources.length] *)
Definition playable (item : Item) : bool :=
  truthy (sources item) && lengthTruthy (sources item).

(** [openPlayer(item)] for an item; [plays src] tells whether the promise
    of [video.play()] resolves for that source. *)
Definition openPlayer (plays : string -> bool) (item : Item) (p : Player)
  : (Exn + unit) * Player :=
  if negb (playable item)
  then (inr tt, alert "No playable source for this item." p)
  else
    let source := firstOf (sources item) in
    match innerTextOf (title item) with
    | inl e => (inl e, p)
    | inr t =>
        let p1 := mkPlayer (modalHidden p) (ariaHidden p) t (modalMeta p)
                    (videoSrc p) (videoPlaying p) (currentPlayUrl p)
                    (revoked p) (alerts p) in
        match coerce (orElse (year item) (VStr "")),
              coerce (orElse (category item) (VStr "")),
              coerce (orElse (description item) (VStr "")) with
        | inr y, inr c, inr d =>
            let p2 := mkPlayer (modalHidden p1) (ariaHidden p1) (modalTitle p1)
                        (y, c, d) (videoSrc p1) (videoPlaying p1)
                        (currentPlayUrl p1) (revoked p1) (alerts p1) in
            let p3 := revokeCurrent p2 in
            match getProp source "url" with
            | inl e => (inl e, p3)
            | inr url =>
                match coerce url with
                | inl e => (inl e, p3)
                | inr src =>
                    (inr tt,
                     mkPlayer false false (modalTitle p3) (modalMeta p3) src
                       (plays src) (currentPlayUrl p3) (revoked p3) (alerts p3))
                end
            end
        | _, _, _ => (inl TypeError, p1)
        end
    end.

Definition closeModal (p : Player) : Player :=
  let p1 := revokeCurrent
              (mkPlayer (modalHidden p) (ariaHidden p) (modalTitle p)
                 (modalMeta p) "" false (currentPlayUrl p) (revoked p)
                 (alerts p)) in
  mkPlayer true true (modalTitle p1) (modalMeta p1) (videoSrc p1)
    (videoPlaying p1) (currentPlayUrl p1) (revoked p1) (alerts p1).

(** What the user can do to the player. *)
Inductive Gesture :=
| ClickItem (item : Item)         (* a card of the item: [openPlayer(item)] *)
| ClickPlayHero (item : Item)     (* [#play-hero] while the hero is [item] *)
| ClickClose                      (* the close button or the backdrop *)
| PressKey (key : string).        (* [keydown] on the document *)

(** A gesture runs its handler; an exception ends the handler and leaves
    the player as the handler had it by then. *)
Definition handle (plays : string -> bool) (g : Gesture) (p : Player) : Player :=
  match g with
  | ClickItem item => snd (openPlayer plays item p)
  | ClickPlayHero item =>
      if playable item then snd (openPlayer plays item p) else p
  | ClickClose => closeModal p
  | PressKey key => if key =? "Escape" then closeModal p else p
  end.

Definition handleAll (plays : string -> bool) (gestures : list Gesture)
    (p : Player) : Player :=
  fold_left (fun q g => handle plays g q) gestures p.

(** The modal's class and its [aria-hidden] agree, a video plays only in
    a modal that is shown, and no object URL is held. *)
Definition tidy (p : Player) : Prop :=
  modalHidden p = ariaHidden p /\
  (videoPlaying p = true -> modalHidden p = false) /\
  currentPlayUrl p = None.

End Player.

(** The player as the page loads it: hidden, silent, nothing alerted. *)
Definition closedPlayer : Player :=
  mkPlayer true true "" ("", "", "") "" false None [] [].

(** A media element that plays whatever it is given. *)
Definition alwaysPlays (src : string) : bool := true.

(** ** More of what the statements observe *)

Section MoreObservations.
Context `{Host}.

(** The item is filed under the key [k]. *)
Definition hasKey (k : string) (x : Item) : bool :=
  match keyOf x with
  | inr k' => k' =? k
  | inl _ => false
  end.

(** [grouped[k]], or nothing when there is no such group *)
Definition groupOf (g : Groups) (k : string) : list Item :=
  match ownGroup k g with
  | Some l => l
  | None => []
  end.

(** The keys of [ks] that are not in [seen], each once, in the order of
    their first occurrence. *)
Fixpoint newKeys (seen ks : list string) : list string :=
  match ks with
  | [] => []
  | k :: r =>
      if existsb (String.eqb k) seen then newKeys seen r
      else k :: newKeys (k :: seen) r
  end.

(** An item that [groupItems] can file: its category converts to a key
    that is not a property of [Object.prototype]. *)
Definition groupable (x : Item) : bool :=
  match keyOf x with
  | inr k => negb (inherited k)
  | inl _ => false
  end.

(** The callback of line 248 applied to an item whose text converts. *)
Definition matches (q : string) (x : Item) : bool :=
  match searchText x with
  | inr text => includes (toLowerCase text) q
  | inl _ => false
  end.

(** A series of [input] events on the search box. *)
Definition typing (inputs : list string) (w : World) : World :=
  fold_left (fun v input => snd (onSearch input v)) inputs w.

(** The key is an array index. *)
Definition isIndexKey (k : string) : bool :=
  match arrayIndex k with
  | Some _ => true
  | None => false
  end.

(** The array indices among the keys, as [objectKeys] sorts them. *)
Definition indexed (keys : list string) : list (N * string) :=
  fold_right (fun k acc => match arrayIndex k with
                           | Some n => insertIndex n k acc
                           | None => acc
                           end) [] keys.

(** How fetching the catalog ends for the loop: with the records to
    iterate over, or with what line 67, 68, 69 or 71 throws. *)
Definition manifest (outcome : FetchOutcome) : Exn + list value :=
  match outcome with
  | FetchFails => inl FetchRejected
  | ResponseNotOk => inl CatalogNotFound
  | BodyNotJson => inl SyntaxError
  | Parsed catalog => iterate catalog
  end.

Fixpoint allChars (p : ascii -> bool) (s : string) : bool :=
  match s with
  | EmptyString => true
  | String c r => p c && allChars p r
  end.

(** A lower-case letter, a digit or a dash. *)
Definition isIdChar (c : ascii) : bool := isSlugChar c || Ascii.eqb c "-".

Definition startsWithDash (s : string) : bool :=
  match s with
  | String c _ => Ascii.eqb c "-"
  | EmptyString => false
  end.

(** No two dashes in a row. *)
Fixpoint noDoubleDash (s : string) : bool :=
  match s with
  | EmptyString => true
  | String c r => negb (Ascii.eqb c "-" && startsWithDash r) && noDoubleDash r
  end.

End MoreObservations.

(** * Facts *)

Local Open Scope list_scope.

(** ** Normalization *)

Section NormalizationFacts.
Context `{Host}.

Lemma getProp_propOf (it : value) (name : string) (v : value) :
  getProp it name = inr v -> forall other, getProp it other = inr (propOf it other).
Proof.
  destruct it; simpl; intros E other; try discriminate; reflexivity.
Qed.

(** Line 73 and the object literal, as one case analysis. *)
Lemma normalizeRecord_run (it : value) (w : World) :
  normalizeRecord it w =
  match getProp it "id" with
  | inl e => (inl e, w)
  | inr rawId =>
      if truthy rawId then (inr (itemOf rawId it), w)
      else if truthy (propOf it "title") then
        match callToLowerCase (propOf it "title") with
        | inl e => (inl e, w)
        | inr low =>
            (inr (itemOf (VStr (slug low ++ "-" ++ decimal (now (clock w)))%string) it),
             tick w)
        end
      else (inr (itemOf (VStr ("item-" ++ decimal (now (clock w)))%string) it), tick w)
  end.
Proof.
  unfold normalizeRecord, bind, lift, ret, dateNow.
  destruct (getProp it "id") as [e | rawId] eqn:Eid; [reflexivity |].
  pose proof (getProp_propOf _ _ _ Eid) as P.
  rewrite !P.
  destruct (truthy rawId); [reflexivity |].
  destruct (truthy (propOf it "title")); [| reflexivity].
  destruct (callToLowerCase (propOf it "title")); reflexivity.
Qed.

Lemma normalizable_runs (it : value) (w : World) :
  normalizable it = true <->
  exists item w', normalizeRecord it w = (inr item, w').
Proof.
  rewrite normalizeRecord_run. unfold normalizable.
  destruct (getProp it "id") as [e | rawId].
  - split; [discriminate | intros (? & ? & ?); discriminate].
  - destruct (truthy rawId); simpl.
    + split; eauto.
    + destruct (truthy (propOf it "title")); simpl.
      * destruct (propOf it "title"); simpl;
          try (split; [discriminate | intros (? & ? & ?); discriminate]).
        split; eauto.
      * split; eauto.
Qed.

Lemma normalizeRecord_fields (it : value) (w w' : World) (item : Item) :
  normalizeRecord it w = (inr item, w') -> item = itemOf (id item) it.
Proof.
  rewrite normalizeRecord_run.
  destruct (getProp it "id"); [discriminate |].
  destruct (truthy v).
  - intros E. inversion E. reflexivity.
  - destruct (truthy (propOf it "title")).
    + destruct (callToLowerCase (propOf it "title")); [discriminate |].
      intros E. inversion E. reflexivity.
    + intros E. inversion E. reflexivity.
Qed.

Lemma orElse_truthy (a b : value) : truthy b = true -> truthy (orElse a b) = true.
Proof.
  intros Hb. unfold orElse. destruct (truthy a) eqn:E; assumption.
Qed.

Lemma orElse_falsy (a b : value) : truthy a = false -> orElse a b = b.
Proof.
  intros E. unfold orElse. rewrite E. reflexivity.
Qed.

Lemma itemOf_themeOk (newId it : value) : themeOk (itemOf newId it).
Proof.
  unfold themeOk, itemOf, orElse. simpl.
  destruct (truthy (propOf it "themeColor")) eqn:E; auto.
Qed.

Lemma normalizeRecord_themeOk (it : value) (w w' : World) (item : Item) :
  normalizeRecord it w = (inr item, w') -> themeOk item.
Proof.
  intros E. rewrite (normalizeRecord_fields _ _ _ _ E). apply itemOf_themeOk.
Qed.

Lemma normalizeRecord_derived (it : value) (w w' : World) (item : Item) :
  normalizeRecord it w = (inr item, w') ->
  lacksId it = true ->
  exists stem, id item = VStr (stem ++ "-" ++ decimal (now (clock w)))%string.
Proof.
  rewrite normalizeRecord_run. unfold lacksId, propOf.
  destruct (getProp it "id") as [e | rawId] eqn:Eid; [discriminate |].
  destruct (truthy rawId); simpl; [discriminate |].
  fold (propOf it "title").
  destruct (truthy (propOf it "title")).
  - destruct (callToLowerCase (propOf it "title")) as [e | low]; [discriminate |].
    intros E _. inversion E. exists (slug low). reflexivity.
  - intros E _. inversion E. exists "item". reflexivity.
Qed.

End NormalizationFacts.

Section NormalizationClaims.
Context `{Host}.

(** C9 (as amended): a record whose [id] is truthy keeps that id verbatim;
    normalization then reads no clock and returns the item of the object
    literal built around that id.  An id that is present but falsy is not
    kept: the id is a stem, a dash and the clock reading. *)
Theorem raw_id_verbatim (it rawId : value) (w : World) :
  getProp it "id" = inr rawId ->
  (truthy rawId = true ->
   normalizeRecord it w = (inr (itemOf rawId it), w) /\
   id (itemOf rawId it) = rawId) /\
  (truthy rawId = false ->
   forall item w',
     normalizeRecord it w = (inr item, w') ->
     exists stem, id item = VStr (stem ++ "-" ++ decimal (now (clock w)))%string).
Proof.
  intros Eid. split.
  - intros Ht. rewrite normalizeRecord_run, Eid, Ht. split; reflexivity.
  - intros Hf item w' E. apply (normalizeRecord_derived _ _ _ _ E).
    unfold lacksId, propOf. rewrite Eid, Hf. reflexivity.
Qed.

(** C4 (as amended): every record that is not [null] and whose title, when
    the id has to be derived from it, is a string, is normalized without an
    exception into one item, each falsy (in particular each absent) field
    replaced by its default; on every other record normalization throws a
    [TypeError] and changes nothing. *)
Theorem normalization_defaults (it : value) (w : World) :
  (normalizable it = true ->
   exists item w',
     normalizeRecord it w = (inr item, w') /\
     title item = orElse (propOf it "title") (VStr "Untitled") /\
     year item = propOf it "year" /\
     description item = orElse (propOf it "description") (VStr "") /\
     poster item = orElse (propOf it "poster") (VStr "") /\
     category item = orElse (propOf it "category") (VStr "Uncategorized") /\
     themeColor item = orElse (propOf it "themeColor") VNull /\
     sources item = orElse (propOf it "sources")
                      (if truthy (propOf it "source")
                       then VArr [propOf it "source"] else VArr [])) /\
  (normalizable it = false -> normalizeRecord it w = (inl TypeError, w)).
Proof.
  split.
  - intros N. destruct (proj1 (normalizable_runs it w) N) as (item & w' & E).
    exists item, w'. split; [exact E |].
    rewrite (normalizeRecord_fields _ _ _ _ E). simpl. repeat split.
  - rewrite normalizeRecord_run. unfold normalizable.
    destruct (getProp it "id") as [e | rawId] eqn:Eid.
    + intros _. destruct it; simpl in Eid; inversion Eid; reflexivity.
    + intros N. apply orb_false_iff in N. destruct N as [N Hs].
      apply orb_false_iff in N. destruct N as [Hid Ht].
      apply negb_false_iff in Ht. rewrite Hid, Ht.
      destruct (propOf it "title"); simpl in *; try discriminate; reflexivity.
Qed.

End NormalizationClaims.

(** C9, counterexample: an id that is present but empty is not kept; the
    id is derived from the clock. *)
Lemma raw_id_empty_string_replaced :
  let h := refHost tickingClock (serves (VArr [])) in
  let it := VObj [("id", VStr "")] in
  getProp it "id" = inr (VStr "") /\
  exists item w',
    @normalizeRecord _ h it (firstVisit h []) = (inr item, w') /\
    id item = VStr "item-1700000000000" /\
    id item <> VStr "".
Proof.
  simpl. split; [reflexivity |].
  eexists. eexists. split; [reflexivity |].
  split; [reflexivity | discriminate].
Qed.

Lemma raw_id_verbatim_witness :
  let h := refHost tickingClock (serves (VArr [])) in
  let it := VObj [("id", VStr "tt0133093"); ("title", VStr "The Matrix")] in
  @normalizeRecord _ h it (firstVisit h []) =
    (inr (itemOf (VStr "tt0133093") it), firstVisit h []) /\
  id (itemOf (VStr "tt0133093") it) = VStr "tt0133093".
Proof.
  intros h it.
  apply (proj1 (@raw_id_verbatim _ h it (VStr "tt0133093") (firstVisit h []) eq_refl));
    reflexivity.
Defined.

(** C4, counterexample: normalization throws on a [null] record and on a
    record whose title is a number. *)
Lemma normalization_throws :
  let h := refHost tickingClock (serves (VArr [])) in
  @normalizeRecord _ h VNull (firstVisit h []) = (inl TypeError, firstVisit h []) /\
  @normalizeRecord _ h (VObj [("title", num 5)]) (firstVisit h [])
    = (inl TypeError, firstVisit h []).
Proof.
  split; reflexivity.
Qed.

Lemma normalization_defaults_witness :
  let h := refHost tickingClock (serves (VArr [])) in
  exists item w',
    @normalizeRecord _ h (VObj [("title", VStr "Alpha")]) (firstVisit h [])
      = (inr item, w') /\
    category item = VStr "Uncategorized" /\ sources item = VArr [].
Proof.
  intros h.
  destruct (proj1 (@normalization_defaults _ h (VObj [("title", VStr "Alpha")])
                     (firstVisit h [])) eq_refl)
    as (item & w' & E & _ & _ & _ & _ & Ec & _ & Es).
  exists item, w'. split; [exact E |]. split; [exact Ec | exact Es].
Defined.

(** ** Grouping *)

Section GroupingFacts.
Context `{Host}.

Lemma ownGroup_pushTo (key k : string) (item : Item) (g : Groups) :
  ownGroup k (pushTo key item g) =
  if k =? key
  then match ownGroup k g with
       | Some l => Some (l ++ [item])%list
       | None => None
       end
  else ownGroup k g.
Proof.
  induction g as [| [k0 l0] r IH]; simpl.
  - destruct (k =? key); reflexivity.
  - destruct (String.eqb_spec k0 key) as [-> | Hne]; simpl.
    + destruct (String.eqb_spec key k) as [<- | Hk].
      * rewrite String.eqb_refl. reflexivity.
      * destruct (String.eqb_spec k key) as [-> | _]; [contradiction | reflexivity].
    + destruct (String.eqb_spec k0 k) as [<- | Hk].
      * destruct (String.eqb_spec k0 key) as [-> | _]; [contradiction | reflexivity].
      * exact IH.
Qed.

Lemma ownGroup_new (key k : string) (l : list Item) (g : Groups) :
  ownGroup key g = None ->
  ownGroup k (g ++ [(key, l)]) = if k =? key then Some l else ownGroup k g.
Proof.
  induction g as [| [k0 l0] r IH]; simpl; intros Hnone.
  - rewrite (String.eqb_sym key k). destruct (k =? key); reflexivity.
  - destruct (String.eqb_spec k0 key) as [-> | Hne]; [discriminate |].
    destruct (String.eqb_spec k0 k) as [<- | Hk].
    + destruct (String.eqb_spec k0 key) as [-> | _]; [contradiction | reflexivity].
    + apply IH, Hnone.
Qed.

(** One step of the reduction either throws or files the item at the end
    of the group of its key and leaves the other groups alone. *)
Lemma groupStep_inr (acc acc' : Groups) (item : Item) :
  groupStep acc item = inr acc' ->
  exists key,
    keyOf item = inr key /\
    forall k, ownGroup k acc' =
              if k =? key
              then Some (match ownGroup k acc with
                         | Some l => l ++ [item]
                         | None => [item]
                         end)%list
              else ownGroup k acc.
Proof.
  unfold groupStep, keyOf.
  destruct (coerce (orElse (category item) (VStr "Featured"))) as [e | key];
    [discriminate |].
  destruct (ownGroup key acc) as [l |] eqn:Eown.
  - intros E. inversion E. subst acc'. exists key. split; [reflexivity |].
    intros k. rewrite ownGroup_pushTo.
    destruct (String.eqb_spec k key) as [-> | _]; [rewrite Eown |]; reflexivity.
  - destruct (inherited key); [discriminate |].
    intros E. inversion E. subst acc'. exists key. split; [reflexivity |].
    intros k. rewrite (ownGroup_new _ _ _ _ Eown).
    destruct (String.eqb_spec k key) as [-> | _]; [rewrite Eown |]; reflexivity.
Qed.

Lemma groupStep_keyed (acc acc' : Groups) (item : Item) :
  groupStep acc item = inr acc' -> keyed acc -> keyed acc'.
Proof.
  intros E K k l x Hown Hin.
  destruct (groupStep_inr _ _ _ E) as (key & Hkey & Hacc).
  rewrite Hacc in Hown.
  destruct (String.eqb_spec k key) as [-> | _].
  - inversion Hown. subst l. clear Hown.
    destruct (ownGroup key acc) as [l0 |] eqn:E0.
    + apply in_app_or in Hin. destruct Hin as [Hin | [<- | []]].
      * exact (K _ _ _ E0 Hin).
      * exact Hkey.
    + destruct Hin as [<- | []]. exact Hkey.
  - exact (K _ _ _ Hown Hin).
Qed.

Lemma groupStep_filed (acc acc' : Groups) (item x : Item) :
  groupStep acc item = inr acc' -> filed x acc \/ x = item -> filed x acc'.
Proof.
  intros E Hx.
  destruct (groupStep_inr _ _ _ E) as (key & Hkey & Hacc).
  destruct Hx as [(k & l & Hk & Hown & Hin) | ->].
  - exists k. destruct (String.eqb_spec k key) as [-> | Hne].
    + exists (l ++ [item])%list. split; [exact Hk |]. split.
      * rewrite Hacc, String.eqb_refl, Hown. reflexivity.
      * apply in_or_app. left. exact Hin.
    + exists l. split; [exact Hk |]. split; [| exact Hin].
      rewrite Hacc. destruct (String.eqb_spec k key); [contradiction | exact Hown].
  - exists key. eexists. split; [exact Hkey |]. split.
    + rewrite Hacc, String.eqb_refl. reflexivity.
    + destruct (ownGroup key acc); [apply in_or_app; right |]; left; reflexivity.
Qed.

Lemma groupItemsFrom_inr (items : list Item) :
  forall acc g,
    groupItemsFrom acc items = inr g ->
    keyed acc ->
    keyed g /\ forall x, filed x acc \/ In x items -> filed x g.
Proof.
  induction items as [| item rest IH]; simpl; intros acc g E K.
  - inversion E. subst g. split; [exact K |].
    intros x [Hx | []]. exact Hx.
  - destruct (groupStep acc item) as [e | acc'] eqn:Es; [discriminate |].
    destruct (IH _ _ E (groupStep_keyed _ _ _ Es K)) as [Kg Fg].
    split; [exact Kg |].
    intros x [Hx | [<- | Hx]].
    + apply Fg. left. apply (groupStep_filed _ _ _ _ Es). left. exact Hx.
    + apply Fg. left. apply (groupStep_filed _ _ _ _ Es). right. reflexivity.
    + apply Fg. right. exact Hx.
Qed.

Lemma groupItems_inr (items : list Item) (g : Groups) :
  groupItems items = inr g ->
  keyed g /\ forall x, In x items -> filed x g.
Proof.
  intros E. destruct (groupItemsFrom_inr items [] g E) as [K F].
  - intros k l x Hown. discriminate.
  - split; [exact K |]. intros x Hx. apply F. right. exact Hx.
Qed.

(** The members of the groups are items of the list that was grouped. *)
Lemma groupItemsFrom_members (items : list Item) :
  forall acc g,
    groupItemsFrom acc items = inr g ->
    forall k l x, ownGroup k g = Some l -> In x l ->
      In x items \/ exists l0, ownGroup k acc = Some l0 /\ In x l0.
Proof.
  induction items as [| item rest IH]; simpl; intros acc g E k l x Hown Hin.
  - inversion E. subst g. right. eauto.
  - destruct (groupStep acc item) as [e | acc'] eqn:Es; [discriminate |].
    destruct (IH _ _ E _ _ _ Hown Hin) as [Hx | (l0 & Hl0 & Hin0)].
    + left. right. exact Hx.
    + destruct (groupStep_inr _ _ _ Es) as (key & Hkey & Hacc).
      rewrite Hacc in Hl0.
      destruct (String.eqb_spec k key) as [-> | _].
      * inversion Hl0. subst l0. clear Hl0.
        destruct (ownGroup key acc) as [l1 |] eqn:E1.
        -- apply in_app_or in Hin0. destruct Hin0 as [Hin0 | [<- | []]].
           ++ right. eauto.
           ++ left. left. reflexivity.
        -- destruct Hin0 as [<- | []]. left. left. reflexivity.
      * right. eauto.
Qed.

Lemma groupItems_members (items : list Item) (g : Groups) (k : string)
    (l : list Item) (x : Item) :
  groupItems items = inr g -> ownGroup k g = Some l -> In x l -> In x items.
Proof.
  intros E Hown Hin.
  destruct (groupItemsFrom_members items [] g E k l x Hown Hin)
    as [Hx | (l0 & Hl0 & _)]; [exact Hx | discriminate].
Qed.

Lemma keyOf_falsy (item : Item) :
  truthy (category item) = false -> keyOf item = inr "Featured".
Proof.
  intros E. unfold keyOf. rewrite (orElse_falsy _ _ E). reflexivity.
Qed.

(** C10: an item whose category is falsy (absent, [null], empty) is filed
    under ['Featured'] and under no other key, by a step of the reduction
    that never throws;
    an item that comes out of normalization always has a truthy category, so
    that for it the fallback is not taken. *)
Theorem featured_fallback (items : list Item) (g : Groups) (item : Item) :
  groupItems items = inr g ->
  In item items ->
  truthy (category item) = false ->
  (exists l, ownGroup "Featured" g = Some l /\ In item l) /\
  (forall k l, ownGroup k g = Some l -> In item l -> k = "Featured") /\
  (forall acc, exists acc' l,
      groupStep acc item = inr acc' /\
      ownGroup "Featured" acc' = Some l /\ In item l) /\
  (forall it w produced w',
      normalizeRecord it w = (inr produced, w') ->
      truthy (category produced) = true /\
      orElse (category produced) (VStr "Featured") = category produced).
Proof.
  intros E Hin Hcat.
  destruct (groupItems_inr _ _ E) as [K F].
  pose proof (keyOf_falsy _ Hcat) as Hkey.
  split; [| split; [| split]].
  - destruct (F _ Hin) as (k & l & Hk & Hown & Hl).
    rewrite Hkey in Hk. inversion Hk. subst k. eauto.
  - intros k l Hown Hl. pose proof (K _ _ _ Hown Hl) as Hk.
    rewrite Hkey in Hk. inversion Hk. reflexivity.
  - intros acc.
    assert (Es : exists acc', groupStep acc item = inr acc').
    { unfold groupStep. fold (keyOf item). rewrite Hkey.
      destruct (ownGroup "Featured" acc); [eauto |]. simpl. eauto. }
    destruct Es as (acc' & Es). exists acc'.
    destruct (groupStep_filed acc acc' item item Es (or_intror eq_refl))
      as (k & l & Hk & Hown & Hl).
    rewrite Hkey in Hk. inversion Hk. subst k. eauto.
  - intros it w produced w' En.
    rewrite (normalizeRecord_fields _ _ _ _ En). simpl.
    assert (T : truthy (orElse (propOf it "category") (VStr "Uncategorized")) = true)
      by (apply orElse_truthy; reflexivity).
    split; [exact T |]. unfold orElse at 1. rewrite T. reflexivity.
Qed.

End GroupingFacts.

(** ** Rows *)

Section RowFacts.
Context `{Host}.

Ltac by8 a :=
  pose proof (Nat.div_mod_eq a 8);
  pose proof (Nat.mod_upper_bound a 8 ltac:(discriminate)).

(* Quotients and remainders by 8 become variables, tied by the equations
   that [by8] stated. *)
Ltac atoms8 :=
  repeat match goal with
         | E : context [?a / 8] |- _ => generalize dependent (a / 8); intros
         | E : context [?a mod 8] |- _ => generalize dependent (a mod 8); intros
         | |- context [?a / 8] => generalize dependent (a / 8); intros
         | |- context [?a mod 8] => generalize dependent (a mod 8); intros
         end.

Lemma pushNulls_repeat (toAdd : nat) :
  forall raw, pushNulls toAdd raw = raw ++ repeat None toAdd.
Proof.
  induction toAdd as [| k IH]; intros raw; simpl.
  - rewrite app_nil_r. reflexivity.
  - rewrite IH, <- app_assoc. reflexivity.
Qed.

Lemma padRaw_repeat (group : list Item) :
  padRaw group =
  map Some group ++ repeat None (8 * ((List.length group + 7) / 8) - List.length group).
Proof.
  unfold padRaw, CARDS_PER_ROW. rewrite length_map.
  set (n := List.length group). by8 n. by8 (n + 7).
  destruct (Nat.eqb_spec (n mod 8) 0) as [E | E].
  - replace (8 * ((n + 7) / 8) - n) with 0 by lia.
    simpl. rewrite app_nil_r. reflexivity.
  - rewrite pushNulls_repeat. f_equal. f_equal. lia.
Qed.

Lemma padRaw_length (group : list Item) :
  List.length (padRaw group) = 8 * ((List.length group + 7) / 8).
Proof.
  rewrite padRaw_repeat, length_app, length_map, repeat_length.
  set (n := List.length group). by8 (n + 7). lia.
Qed.

Lemma starts_seq (fuel : nat) :
  forall k r, r - k <= fuel ->
    starts fuel (8 * k) (8 * r) = map (fun j => 8 * j) (seq k (r - k)).
Proof.
  induction fuel as [| f IH]; intros k r Hf; cbn [starts].
  - replace (r - k) with 0 by lia. reflexivity.
  - destruct (Nat.ltb_spec (8 * k) (8 * r)) as [Hlt | Hge].
    + unfold CARDS_PER_ROW. replace (8 * k + 8) with (8 * S k) by lia.
      rewrite IH by lia.
      replace (r - k) with (S (r - S k)) by lia. reflexivity.
    + replace (r - k) with 0 by lia. reflexivity.
Qed.

Lemma makeCards_slots (chunk : list (option Item)) :
  forall cards, makeCards chunk = inr cards -> map cardSlot cards = chunk.
Proof.
  induction chunk as [| slot rest IH]; simpl; intros cards E.
  - inversion E. reflexivity.
  - destruct (makeCard slot) as [e | card] eqn:Ec; [discriminate |].
    destruct (makeCards rest) as [e | cards'] eqn:Er; [discriminate |].
    inversion E. subst cards. simpl. rewrite (IH _ eq_refl). f_equal.
    unfold makeCard in Ec. destruct slot as [item |].
    + destruct (if truthy (themeColor item) then _ else _); [discriminate |].
      destruct (coerce (title item)); [discriminate |].
      destruct (coerce (orElse (poster item) (VStr ""))); [discriminate |].
      destruct (coerce (orElse (year item) (VStr ""))); [discriminate |].
      destruct (coerce (orElse (category item) (VStr ""))); [discriminate |].
      inversion Ec. reflexivity.
    + inversion Ec. reflexivity.
Qed.

Lemma withRows_same (w : World) : withRows (rowsEl w) w = w.
Proof.
  destruct w. reflexivity.
Qed.

(** The loop only touches [#rows]. *)
Lemma rowLoop_frame (fuel : nat) (cat : string) (raw : list (option Item)) :
  forall start w, exists rows,
    snd (rowLoop fuel cat raw start w) = withRows rows w.
Proof.
  induction fuel as [| f IH]; intros start w; simpl.
  - exists (rowsEl w). symmetry. apply withRows_same.
  - destruct (start <? List.length raw)%nat.
    + unfold bind, lift, modify.
      destruct (makeCards _) as [e | cards].
      * exists (rowsEl w). symmetry. apply withRows_same.
      * match goal with
        | |- context [rowLoop f cat raw ?s ?w1] =>
            destruct (IH s w1) as (rows & E);
            destruct (rowLoop f cat raw s w1) as [[e | []] w2]
        end; simpl in *; subst; eexists; reflexivity.
    + exists (rowsEl w). symmetry. apply withRows_same.
Qed.

(** A loop that ends normally appended one row per value of [start]. *)
Lemma rowLoop_ok (fuel : nat) (cat : string) (raw : list (option Item)) :
  forall start w w',
    rowLoop fuel cat raw start w = (inr tt, w') ->
    exists rows,
      w' = withRows (rowsEl w ++ map RowSection rows) w /\
      Forall2 (rowAt cat raw) (starts fuel start (List.length raw)) rows.
Proof.
  induction fuel as [| f IH]; intros start w w' E; simpl in *.
  - inversion E. subst w'. exists []. simpl. rewrite app_nil_r.
    split; [symmetry; apply withRows_same | constructor].
  - destruct (start <? List.length raw)%nat.
    + unfold bind, lift, modify in E.
      destruct (makeCards _) as [e | cards] eqn:Ec; [discriminate |].
      apply IH in E. destruct E as (rows & -> & F).
      eexists (_ :: rows). split.
      * unfold appendRow. simpl. rewrite <- app_assoc. reflexivity.
      * constructor; [| exact F]. split; [reflexivity | exact Ec].
    + inversion E. subst w'. exists []. simpl. rewrite app_nil_r.
      split; [symmetry; apply withRows_same | constructor].
Qed.

Lemma Forall2_map_seq {B} (R : nat -> B -> Prop) (f : nat -> nat) (c : nat) :
  forall k l,
    Forall2 R (map f (seq k c)) l ->
    List.length l = c /\
    forall j y, nth_error l j = Some y -> R (f (k + j)) y.
Proof.
  induction c as [| c IH]; intros k l F; simpl in F.
  - inversion F. subst. split; [reflexivity |].
    intros [| j] y E; discriminate.
  - inversion F as [| x y0 l1 l2 Hxy Frest]. subst.
    destruct (IH _ _ Frest) as [Hlen Hnth]. split; [simpl; lia |].
    intros [| j] y E; simpl in E.
    + inversion E. subst y. rewrite Nat.add_0_r. exact Hxy.
    + replace (k + S j) with (S k + j) by lia. apply Hnth, E.
Qed.

Lemma slice_length {A} (start stop : nat) (l : list A) :
  stop <= List.length l -> List.length (slice start stop l) = stop - start.
Proof.
  intros Hs. unfold slice. rewrite length_skipn, length_firstn. lia.
Qed.

Lemma slice_map {A B} (f : A -> B) (start stop : nat) (l : list A) :
  slice start stop (map f l) = map f (slice start stop l).
Proof.
  unfold slice. rewrite firstn_map, skipn_map. reflexivity.
Qed.

Lemma slice_app_left {A} (start stop : nat) (l1 l2 : list A) :
  stop <= List.length l1 -> slice start stop (l1 ++ l2) = slice start stop l1.
Proof.
  intros Hs. unfold slice. rewrite firstn_app.
  replace (stop - List.length l1) with 0 by lia.
  simpl. rewrite app_nil_r. reflexivity.
Qed.

Lemma slice_app_tail {A} (start stop : nat) (l1 l2 : list A) :
  start <= List.length l1 -> List.length (l1 ++ l2) <= stop ->
  slice start stop (l1 ++ l2) = skipn start l1 ++ l2.
Proof.
  intros Hs He. unfold slice. rewrite firstn_all2 by exact He.
  rewrite skipn_app. replace (start - List.length l1) with 0 by lia.
  reflexivity.
Qed.

(** The rows of a category that was rendered to the end are paginated. *)
Lemma rows_paginated (cat : string) (group : list Item) (block : list Row) :
  Forall2 (rowAt cat (padRaw group))
    (starts (List.length (padRaw group)) 0 (List.length (padRaw group))) block ->
  paginated group block.
Proof.
  rewrite padRaw_length.
  set (n := List.length group). set (r := (n + 7) / 8).
  assert (Hr : r = (n + 7) / 8) by reflexivity.
  by8 n. by8 (n + 7).
  change (starts (8 * r) 0 (8 * r)) with (starts (8 * r) (8 * 0) (8 * r)).
  rewrite starts_seq by lia.
  intros F. apply Forall2_map_seq in F. destruct F as [Hlen Hrow].
  rewrite Nat.sub_0_r in Hlen.
  unfold paginated. fold n.
  rewrite Hlen. split; [reflexivity |].
  intros j row Ej.
  assert (Hj : j < r).
  { rewrite <- Hlen. apply nth_error_Some. rewrite Ej. discriminate. }
  pose proof (Hrow _ _ Ej) as Hat. cbv beta in Hat.
  rewrite Nat.add_0_l in Hat. destruct Hat as [_ Hcards].
  apply makeCards_slots in Hcards. fold (rowSlots row) in Hcards.
  unfold CARDS_PER_ROW in Hcards. rewrite Hcards.
  replace (j * 8) with (8 * j) by lia.
  split; [| split].
  - rewrite slice_length; [lia |]. rewrite padRaw_length. fold n. clearbody r n. atoms8. lia.
  - intros Hlast. rewrite padRaw_repeat. fold n.
    rewrite slice_app_left by (rewrite length_map; fold n; clearbody r n; atoms8; lia).
    apply slice_map.
  - intros Hlast. rewrite length_skipn. fold n. split.
    + destruct (Nat.eqb_spec (n mod 8) 0); clearbody r n; atoms8; lia.
    + rewrite padRaw_repeat. fold n.
      rewrite slice_app_tail.
      * rewrite skipn_map. f_equal. f_equal.
        destruct (Nat.eqb_spec (n mod 8) 0); clearbody r n; atoms8; lia.
      * rewrite length_map. fold n. clearbody r n. atoms8. lia.
      * rewrite length_app, length_map, repeat_length. fold n. clearbody r n. atoms8. lia.
Qed.

Lemma renderCategories_frame (grouped : Groups) (keys : list string) :
  forall w, exists rows, snd (renderCategories grouped keys w) = withRows rows w.
Proof.
  induction keys as [| cat rest IH]; intros w; simpl.
  - exists (rowsEl w). symmetry. apply withRows_same.
  - destruct (ownGroup cat grouped) as [group |].
    + unfold bind.
      destruct (rowLoop_frame (List.length (padRaw group)) cat (padRaw group) 0 w)
        as (rows & E).
      destruct (rowLoop _ cat (padRaw group) 0 w) as [[e | []] w1]; simpl in E; subst w1.
      * eexists. reflexivity.
      * destruct (IH (withRows rows w)) as (rows' & E'). rewrite E'.
        eexists. reflexivity.
    + exists (rowsEl w). symmetry. apply withRows_same.
Qed.

Lemma renderRows_frame (grouped : Groups) (w : World) :
  exists rows, snd (renderRows grouped w) = withRows rows w.
Proof.
  unfold renderRows, bind, modify.
  destruct (objectKeys grouped) as [| k ks].
  - eexists. reflexivity.
  - destruct (renderCategories_frame grouped (k :: ks) (withRows [] w)) as (rows & E).
    destruct (renderCategories grouped (k :: ks) (withRows [] w)) as [[e | []] w1];
      simpl in E; subst w1; eexists; reflexivity.
Qed.

Lemma renderCategories_ok (grouped : Groups) (keys : list string) :
  forall w w',
    renderCategories grouped keys w = (inr tt, w') ->
    exists blocks,
      w' = withRows (rowsEl w ++ map RowSection (List.concat blocks)) w /\
      Forall2 (renderedBlock grouped) keys blocks.
Proof.
  induction keys as [| cat rest IH]; intros w w' E; simpl in E.
  - inversion E. subst w'. exists []. simpl. rewrite app_nil_r.
    split; [symmetry; apply withRows_same | constructor].
  - destruct (ownGroup cat grouped) as [group |] eqn:Eg; [| discriminate].
    unfold bind in E.
    destruct (rowLoop _ cat (padRaw group) 0 w) as [[e | []] w1] eqn:E1;
      [discriminate |].
    apply rowLoop_ok in E1. destruct E1 as (rows & -> & F).
    apply IH in E. destruct E as (blocks & -> & Fb).
    exists (rows :: blocks). split.
    + simpl. rewrite map_app, app_assoc. reflexivity.
    + constructor; [| exact Fb]. exists group. split; [exact Eg | exact F].
Qed.

Lemma sections_map_RowSection (rows : list Row) :
  sections (map RowSection rows) = rows.
Proof.
  induction rows as [| r rest IH]; simpl; [| rewrite IH]; reflexivity.
Qed.

Lemma renderRows_ok (grouped : Groups) (w w' : World) :
  renderRows grouped w = (inr tt, w') ->
  exists blocks,
    sections (rowsEl w') = List.concat blocks /\
    Forall2 (renderedBlock grouped) (objectKeys grouped) blocks.
Proof.
  unfold renderRows, bind, modify.
  destruct (objectKeys grouped) as [| k ks] eqn:Ek.
  - intros E. inversion E. subst w'. exists []. split; [reflexivity | constructor].
  - intros E. apply renderCategories_ok in E. destruct E as (blocks & -> & F).
    exists blocks. split; [| exact F].
    simpl rowsEl. apply sections_map_RowSection.
Qed.

Lemma In_insertIndex (n n0 : N) (k k0 : string) (l : list (N * string)) :
  In (n, k) (insertIndex n0 k0 l) <-> (n, k) = (n0, k0) \/ In (n, k) l.
Proof.
  induction l as [| [m k1] r IH]; simpl.
  - split; intros [E | []]; left; congruence.
  - destruct (n0 <=? m)%N; simpl.
    + split; intros [E | E]; auto.
    + rewrite IH. split; intros [E | [E | E]]; auto.
Qed.

Lemma objectKeys_In (g : Groups) (k : string) :
  In k (objectKeys g) <-> In k (map fst g).
Proof.
  unfold objectKeys. rewrite in_app_iff, filter_In, in_map_iff.
  set (keys := map fst g).
  assert (Hidx : forall n, In (n, k)
            (fold_right (fun k acc => match arrayIndex k with
                                      | Some n => insertIndex n k acc
                                      | None => acc
                                      end) [] keys)
            <-> In k keys /\ arrayIndex k = Some n).
  { intros n. induction keys as [| k0 ks IH]; simpl.
    - split; [intros [] | intros [[] _]].
    - destruct (arrayIndex k0) as [n0 |] eqn:E0.
      + rewrite In_insertIndex, IH. split.
        * intros [E | [Hin E]]; [inversion E; subst; auto | auto].
        * intros [[-> | Hin] E]; [left; congruence | auto].
      + rewrite IH. split.
        * intros [Hin E]; auto.
        * intros [[-> | Hin] E]; [congruence | auto]. }
  split.
  - intros [([n k'] & Es & Hin) | [Hin _]]; [| exact Hin].
    simpl in Es. subst k'. apply Hidx in Hin. tauto.
  - intros Hin. destruct (arrayIndex k) as [n |] eqn:E.
    + left. exists (n, k). split; [reflexivity |]. apply Hidx. auto.
    + right. auto.
Qed.

Lemma ownGroup_In (g : Groups) (k : string) (l : list Item) :
  ownGroup k g = Some l -> In k (map fst g) /\ In (k, l) g.
Proof.
  induction g as [| [k0 l0] r IH]; simpl; [discriminate |].
  destruct (String.eqb_spec k0 k) as [-> | _].
  - intros E. inversion E. auto.
  - intros E. destruct (IH E). auto.
Qed.

Lemma makeCards_completes (chunk : list (option Item)) :
  (forall item, In (Some item) chunk -> printable item) ->
  exists cards, makeCards chunk = inr cards.
Proof.
  induction chunk as [| slot rest IH]; intros Hp; simpl.
  - eauto.
  - destruct IH as (cards & ->); [intros item Hi; apply Hp; right; exact Hi |].
    destruct slot as [item |].
    + destruct (Hp item (or_introl eq_refl)) as (card & ->). eauto.
    + simpl. eauto.
Qed.

Lemma In_slice_of {A} (start stop : nat) (l : list A) (a : A) :
  In a (slice start stop l) -> In a l.
Proof.
  unfold slice. intros Hin.
  rewrite <- (firstn_skipn stop l). apply in_or_app. left.
  rewrite <- (firstn_skipn start (firstn stop l)). apply in_or_app. right.
  exact Hin.
Qed.

Lemma rowLoop_completes (cat : string) (raw : list (option Item)) :
  (forall item, In (Some item) raw -> printable item) ->
  forall fuel start w, exists w', rowLoop fuel cat raw start w = (inr tt, w').
Proof.
  intros Hp. induction fuel as [| f IH]; intros start w; simpl.
  - eexists. reflexivity.
  - destruct (start <? List.length raw)%nat; [| eexists; reflexivity].
    unfold bind, lift, modify.
    destruct (makeCards_completes (slice start (start + CARDS_PER_ROW) raw))
      as (cards & ->).
    + intros item Hi. apply Hp. exact (In_slice_of _ _ _ _ Hi).
    + apply IH.
Qed.

Lemma padRaw_items (group : list Item) (x : Item) :
  In (Some x) (padRaw group) -> In x group.
Proof.
  rewrite padRaw_repeat, in_app_iff, in_map_iff.
  intros [(y & E & Hy) | Hr].
  - inversion E. subst y. exact Hy.
  - apply repeat_spec in Hr. discriminate.
Qed.

Lemma ownGroup_of_key (g : Groups) (k : string) :
  In k (map fst g) -> exists group, ownGroup k g = Some group.
Proof.
  induction g as [| [k0 l0] r IH]; simpl; [intros [] |].
  destruct (String.eqb_spec k0 k) as [-> | Hne]; [eauto |].
  intros [E | Hin]; [contradiction | exact (IH Hin)].
Qed.

(** The rendering returns normally, and so leaves all its rows, whenever
    every grouped item is printable. *)
Lemma renderRows_completes (grouped : Groups) (w : World) :
  (forall cat group, ownGroup cat grouped = Some group -> Forall printable group) ->
  exists w', renderRows grouped w = (inr tt, w').
Proof.
  intros Hp. unfold renderRows, bind, modify.
  assert (Hk : forall keys, (forall k, In k keys -> In k (objectKeys grouped)) ->
                 forall w0, exists w', renderCategories grouped keys w0 = (inr tt, w')).
  { induction keys as [| cat rest IH]; intros Hin w0; simpl.
    - eexists. reflexivity.
    - destruct (ownGroup_of_key grouped cat) as (group & Eg).
      { apply objectKeys_In, Hin. left. reflexivity. }
      rewrite Eg. unfold bind.
      destruct (rowLoop_completes cat (padRaw group)) with
        (fuel := List.length (padRaw group)) (start := 0) (w := w0) as (w1 & ->).
      { intros item Hi. apply padRaw_items in Hi.
        exact (proj1 (Forall_forall _ _) (Hp _ _ Eg) _ Hi). }
      apply IH. intros k Hk. apply Hin. right. exact Hk. }
  destruct (objectKeys grouped) as [| k ks] eqn:Ek.
  - eexists. reflexivity.
  - apply Hk. intros k0 Hk0. try rewrite Ek. exact Hk0.
Qed.

(** C1: when [renderRows] has rendered the groups, the row sections of
    [#rows] are, key after key of [Object.keys], the rows of that key's
    group: ceil(n/8) rows of exactly 8 slots for a group of n items, every
    row before the last filled with items, the last holding the remaining
    n mod 8 items (8 when that is 0) followed by placeholders; and every
    group has its key among those keys. *)
Theorem pagination_invariant (grouped : Groups) (w w' : World) :
  renderRows grouped w = (inr tt, w') ->
  (forall cat group,
      ownGroup cat grouped = Some group -> In cat (objectKeys grouped)) /\
  exists blocks,
    sections (rowsEl w') = List.concat blocks /\
    Forall2 (fun cat block =>
               exists group,
                 ownGroup cat grouped = Some group /\ paginated group block)
            (objectKeys grouped) blocks.
Proof.
  intros E. split.
  - intros cat group Eg. apply objectKeys_In, (ownGroup_In _ _ _ Eg).
  - destruct (renderRows_ok _ _ _ E) as (blocks & Es & F).
    exists blocks. split; [exact Es |].
    eapply Forall2_impl; [| exact F].
    intros cat block (group & Eg & Fr). exists group.
    split; [exact Eg | exact (rows_paginated _ _ _ Fr)].
Qed.

End RowFacts.

(** ** Strings *)

Section StringFacts.

Lemma toLowerCase_app (a b : string) :
  toLowerCase (a ++ b) = (toLowerCase a ++ toLowerCase b)%string.
Proof.
  induction a as [| x r IH]; simpl; [| rewrite IH]; reflexivity.
Qed.

Lemma prefix_occurs (q s : string) :
  prefix q s = true <-> exists after, s = (q ++ after)%string.
Proof.
  revert s. induction q as [| c r IH]; intros s.
  - destruct s; simpl; split; eauto.
  - destruct s as [| x t]; simpl.
    + split; [discriminate | intros (after & E); discriminate].
    + destruct (ascii_dec c x) as [-> | Hne].
      * rewrite IH. split; intros (after & E); exists after; congruence.
      * split; [discriminate | intros (after & E); congruence].
Qed.

Lemma includes_occurs (s q : string) :
  includes s q = true <-> occursIn q s.
Proof.
  unfold occursIn. induction s as [| c r IH]; cbn [includes].
  - rewrite orb_false_r, prefix_occurs. split.
    + intros (after & E). exists "", after. exact E.
    + intros ([| x b] & after & E); [eauto | discriminate].
  - rewrite orb_true_iff, prefix_occurs, IH. split.
    + intros [(after & E) | (before & after & E)].
      * exists "", after. exact E.
      * exists (String c before), after. simpl. congruence.
    + intros ([| x before] & after & E).
      * left. exists after. exact E.
      * right. exists before, after. simpl in E. congruence.
Qed.

(** A string without the separator that starts inside [a] ends inside [a]. *)
Lemma prefix_before_separator (c : ascii) (q : string) :
  forall a b after,
    (q ++ after)%string = (a ++ String c b)%string ->
    hasChar c q = false ->
    exists after', a = (q ++ after')%string.
Proof.
  induction q as [| x r IH]; intros a b after E Hc; simpl in *.
  - exists a. reflexivity.
  - apply orb_false_iff in Hc. destruct Hc as [Hx Hr].
    destruct a as [| y a']; simpl in E.
    + inversion E. subst x. rewrite Ascii.eqb_refl in Hx. discriminate.
    + inversion E. subst y. destruct (IH _ _ _ H1 Hr) as (after' & ->).
      exists after'. reflexivity.
Qed.

(** A string without the separator occurs on one side of it. *)
Lemma occurs_beside_separator (c : ascii) (q b : string) :
  forall a,
    occursIn q (a ++ String c b) ->
    hasChar c q = false ->
    occursIn q a \/ occursIn q b.
Proof.
  induction a as [| y a' IH]; intros (before & after & E) Hc; simpl in E.
  - destruct before as [| x before']; simpl in E.
    + destruct q as [| x r]; simpl in *.
      * left. exists "", "". reflexivity.
      * inversion E. subst x. rewrite Ascii.eqb_refl in Hc. discriminate.
    + inversion E. right. exists before', after. reflexivity.
  - destruct before as [| x before']; simpl in E.
    + left. symmetry in E.
      destruct (prefix_before_separator c q (String y a') b after E Hc) as (after' & E').
      exists "", after'. exact E'.
    + inversion E. subst x.
      destruct (IH (ex_intro _ before' (ex_intro _ after H1)) Hc)
        as [(b1 & a1 & E1) | Hb].
      * left. exists (String y b1), a1. simpl. congruence.
      * right. exact Hb.
Qed.

End StringFacts.

(** ** Hero and search *)

Section ViewFacts.
Context `{Host}.

Lemma renderHero_frame (item : Item) (w : World) :
  exists h, snd (renderHero item w) = withHero h w.
Proof.
  unfold renderHero, bind, lift, modify.
  destruct (coerce (orElse (title item) _)); simpl;
    [exists (heroEl w); destruct w; reflexivity |].
  destruct (coerce (orElse (description item) _)); simpl;
    [eexists; reflexivity |].
  destruct (coerce (orElse (poster item) _)); simpl;
    [eexists; reflexivity |].
  destruct (coerce (orElse (themeColor item) _)); simpl;
    eexists; reflexivity.
Qed.

Lemma sameData_withHero (h : HeroDom) (w : World) : sameData w (withHero h w).
Proof. repeat split. Qed.

Lemma sameData_withRows (rows : list RowsChild) (w : World) :
  sameData w (withRows rows w).
Proof. repeat split. Qed.

Lemma sameData_trans (a b c : World) : sameData a b -> sameData b c -> sameData a c.
Proof.
  unfold sameData. intros (? & ? & ? & ? & ?) (? & ? & ? & ? & ?).
  repeat split; congruence.
Qed.

Lemma renderHero_sameData (item : Item) (w : World) :
  sameData w (snd (renderHero item w)).
Proof.
  destruct (renderHero_frame item w) as (h & ->). apply sameData_withHero.
Qed.

Lemma renderRows_sameData (grouped : Groups) (w : World) :
  sameData w (snd (renderRows grouped w)) /\
  heroEl (snd (renderRows grouped w)) = heroEl w.
Proof.
  destruct (renderRows_frame grouped w) as (rows & ->).
  split; [apply sameData_withRows | reflexivity].
Qed.

(** [renderAll] shows the hero picked from the whole cache. *)
Lemma renderAll_frame (w : World) :
  sameData w (snd (renderAll w)) /\
  heroEl (snd (renderAll w)) = heroEl (snd (renderHero (pickHero (itemsCache w)) w)).
Proof.
  unfold renderAll, bind, gets, lift.
  pose proof (renderHero_sameData (pickHero (itemsCache w)) w) as Sh.
  destruct (renderHero (pickHero (itemsCache w)) w) as [[e | []] w1]; simpl in *;
    [split; [exact Sh | reflexivity] |].
  destruct (groupItems (itemsCache w)) as [e | grouped]; simpl;
    [split; [exact Sh | reflexivity] |].
  destruct (renderRows_sameData grouped w1) as [Sr Hh].
  split; [exact (sameData_trans _ _ _ Sh Sr) | exact Hh].
Qed.

Lemma find_skips {A} (p : A -> bool) (before : list A) (x : A) (after : list A) :
  Forall (fun i => p i = false) before -> p x = true ->
  find p (before ++ x :: after) = Some x.
Proof.
  induction before as [| b r IH]; simpl; intros F Hx.
  - rewrite Hx. reflexivity.
  - inversion F as [| ? ? Hb Fr]. subst. rewrite Hb. exact (IH Fr Hx).
Qed.

Lemma find_nothing {A} (p : A -> bool) (l : list A) :
  Forall (fun i => p i = false) l -> find p l = None.
Proof.
  induction l as [| b r IH]; simpl; intros F; [reflexivity |].
  inversion F as [| ? ? Hb Fr]. subst. rewrite Hb. exact (IH Fr).
Qed.

Lemma themeOk_truthy (i : Item) :
  themeOk i -> (truthy (themeColor i) = true <-> themeColor i <> VNull).
Proof.
  intros [E | E]; rewrite E; split; intros X; try discriminate; try reflexivity.
  - contradiction.
  - intros N. rewrite N in E. discriminate.
Qed.

(** [itemsCache.find(i => i.themeColor)] tests truthiness: the hero is
    the first item whose theme color is truthy, and the first item of the
    cache when there is none. *)
Lemma pickHero_first_truthy (before : list Item) (themed : Item) (after : list Item) :
  Forall (fun i => truthy (themeColor i) = false) before ->
  truthy (themeColor themed) = true ->
  pickHero (before ++ themed :: after) = themed.
Proof.
  intros Fb Ht. unfold pickHero. rewrite (find_skips _ _ _ _ Fb Ht).
  destruct before; reflexivity.
Qed.

Lemma pickHero_none_truthy (first : Item) (rest : list Item) :
  Forall (fun i => truthy (themeColor i) = false) (first :: rest) ->
  pickHero (first :: rest) = first.
Proof.
  intros Fn. unfold pickHero. rewrite (find_nothing _ _ Fn). reflexivity.
Qed.

Lemma null_theme_falsy (l : list Item) :
  Forall (fun i => themeColor i = VNull) l ->
  Forall (fun i => truthy (themeColor i) = false) l.
Proof.
  apply Forall_impl. intros i E. rewrite E. reflexivity.
Qed.

(** C6: on a cache whose theme colors are as line 81 leaves them, [null]
    or truthy, which is every cache the script loads from what it stored,
    [pickHero] returns the first item of the cache whose theme color is not
    [null], the first item of the cache when every theme color is [null],
    and the fixed ['No content'] hero with the default accent when the cache
    is empty.  A search leaves the cache alone and either keeps the hero on
    display or renders again the hero picked from the whole cache. *)
Theorem hero_selection (w : World) :
  Forall themeOk (itemsCache w) ->
  (itemsCache w = [] ->
   pickHero (itemsCache w) = noContentHero /\
   title noContentHero = VStr "No content" /\
   description noContentHero = VStr "Add items via catalog.json in the repository" /\
   themeColor noContentHero = VStr "#e50914") /\
  (forall before themed after,
      itemsCache w = before ++ themed :: after ->
      Forall (fun i => themeColor i = VNull) before ->
      themeColor themed <> VNull ->
      pickHero (itemsCache w) = themed) /\
  (forall first rest,
      itemsCache w = first :: rest ->
      Forall (fun i => themeColor i = VNull) (first :: rest) ->
      pickHero (itemsCache w) = first) /\
  (forall input r w',
      onSearch input w = (r, w') ->
      itemsCache w' = itemsCache w /\
      (heroEl w' = heroEl w \/
       heroEl w' = heroEl (snd (renderHero (pickHero (itemsCache w)) w)))).
Proof.
  intros Ok. split; [| split; [| split]].
  - intros ->. repeat split.
  - intros before themed after E Fb Ht.
    assert (Okt : themeOk themed).
    { rewrite E in Ok. apply Forall_app in Ok. destruct Ok as [_ Ok].
      inversion Ok. assumption. }
    rewrite E. apply pickHero_first_truthy.
    + exact (null_theme_falsy _ Fb).
    + exact (proj2 (themeOk_truthy themed Okt) Ht).
  - intros first rest E Fn. rewrite E.
    exact (pickHero_none_truthy _ _ (null_theme_falsy _ Fn)).
  - intros input r w' E. unfold onSearch in E.
    destruct (trim (toLowerCase input) =? "")%string.
    + destruct (renderAll_frame w) as [(_ & Hc & _) Hh].
      rewrite E in Hc, Hh. simpl in Hc, Hh. split; [exact Hc | right; exact Hh].
    + unfold bind, gets, lift in E.
      destruct (filterItems _ (itemsCache w)) as [e | filtered];
        [inversion E; subst; auto |].
      destruct (groupItems filtered) as [e | grouped];
        [inversion E; subst; auto |].
      destruct (renderRows_sameData grouped w) as [(_ & Hc & _) Hh].
      rewrite E in Hc, Hh. simpl in Hc, Hh. split; [exact Hc | left; exact Hh].
Qed.

End ViewFacts.

Section SearchFacts.
Context `{Host}.

Lemma filterItems_In (q : string) (items : list Item) :
  forall kept x,
    filterItems q items = inr kept -> In x kept ->
    In x items /\
    exists text, searchText x = inr text /\ includes (toLowerCase text) q = true.
Proof.
  induction items as [| i rest IH]; simpl; intros kept x E Hin.
  - inversion E. subst kept. destruct Hin.
  - destruct (searchText i) as [e | text] eqn:Et; [discriminate |].
    destruct (filterItems q rest) as [e | kept'] eqn:Er; [discriminate |].
    destruct (includes (toLowerCase text) q) eqn:Ei; inversion E; subst kept.
    + destruct Hin as [<- | Hin].
      * split; [left; reflexivity | eauto].
      * destruct (IH _ _ eq_refl Hin) as [Hx Ht]. split; [right; exact Hx | exact Ht].
    + destruct (IH _ _ eq_refl Hin) as [Hx Ht]. split; [right; exact Hx | exact Ht].
Qed.

Lemma shownItems_sections (children : list RowsChild) (x : Item) :
  In x (shownItems children) <->
  exists row, In row (sections children) /\ In x (realItems (rowSlots row)).
Proof.
  unfold shownItems, sections. rewrite in_flat_map. split.
  - intros ([| r] & Hc & Hx); [destruct Hx |].
    exists r. split; [| exact Hx].
    apply in_flat_map. exists (RowSection r). split; [exact Hc | left; reflexivity].
  - intros (row & Hr & Hx). apply in_flat_map in Hr.
    destruct Hr as ([| r] & Hc & Hr); [destruct Hr |].
    destruct Hr as [<- | []]. exists (RowSection r). split; assumption.
Qed.

Lemma realItems_In (slots : list (option Item)) (x : Item) :
  In x (realItems slots) <-> In (Some x) slots.
Proof.
  unfold realItems. rewrite in_flat_map. split.
  - intros ([i |] & Hs & Hx); [| destruct Hx].
    destruct Hx as [<- | []]. exact Hs.
  - intros Hs. exists (Some x). split; [exact Hs | left; reflexivity].
Qed.

Lemma Forall2_in_r {A B} (R : A -> B -> Prop) (l1 : list A) (l2 : list B) :
  Forall2 R l1 l2 -> forall y, In y l2 -> exists x, In x l1 /\ R x y.
Proof.
  induction 1 as [| a b r1 r2 Hab F IH]; intros y Hy; [destruct Hy |].
  destruct Hy as [<- | Hy].
  - exists a. split; [left; reflexivity | exact Hab].
  - destruct (IH _ Hy) as (x & Hx & Hr). exists x. split; [right; exact Hx | exact Hr].
Qed.

(** What a finished rendering shows comes from the groups it was given. *)
Lemma renderRows_shown (grouped : Groups) (w w' : World) (x : Item) :
  renderRows grouped w = (inr tt, w') ->
  In x (shownItems (rowsEl w')) ->
  exists cat group, ownGroup cat grouped = Some group /\ In x group.
Proof.
  intros E Hx. destruct (renderRows_ok _ _ _ E) as (blocks & Es & F).
  apply shownItems_sections in Hx. destruct Hx as (row & Hrow & Hx).
  rewrite Es in Hrow. apply in_concat in Hrow.
  destruct Hrow as (block & Hblock & Hrow).
  destruct (Forall2_in_r _ _ _ F _ Hblock) as (cat & _ & group & Eg & Fr).
  exists cat, group. split; [exact Eg |].
  destruct (Forall2_in_r _ _ _ Fr _ Hrow) as (start & _ & _ & Hcards).
  apply makeCards_slots in Hcards. fold (rowSlots row) in Hcards.
  apply realItems_In in Hx. rewrite Hcards in Hx.
  apply In_slice_of in Hx. exact (padRaw_items _ _ Hx).
Qed.

Lemma searchText_fields (item : Item) (text : string) :
  searchText item = inr text ->
  exists t d c,
    coerce (title item) = inr t /\
    coerce (orElse (description item) (VStr "")) = inr d /\
    coerce (orElse (category item) (VStr "")) = inr c /\
    text = (t ++ " " ++ d ++ " " ++ c)%string.
Proof.
  unfold searchText.
  destruct (coerce (title item)) as [e | t]; [discriminate |].
  destruct (coerce (orElse (description item) _)) as [e | d]; [discriminate |].
  destruct (coerce (orElse (category item) _)) as [e | c]; [discriminate |].
  intros E. inversion E. exists t, d, c. repeat split.
Qed.

(** C5 (as amended): an empty or white-space search renders the
    unfiltered view; after any other search that rendered, every item on
    display is an item of the cache whose text [title + ' ' + description +
    ' ' + category], lower-cased, contains the lower-cased and trimmed search
    text, and the match lies within one of the three fields when the search
    text has no space in it. *)
Theorem search_narrowing (input : string) :
  (forall w, trim (toLowerCase input) = "" -> onSearch input w = renderAll w) /\
  (forall w w' item,
      trim (toLowerCase input) <> "" ->
      onSearch input w = (inr tt, w') ->
      In item (shownItems (rowsEl w')) ->
      In item (itemsCache w) /\
      exists t d c,
        coerce (title item) = inr t /\
        coerce (orElse (description item) (VStr "")) = inr d /\
        coerce (orElse (category item) (VStr "")) = inr c /\
        occursIn (trim (toLowerCase input))
                 (toLowerCase (t ++ " " ++ d ++ " " ++ c)) /\
        (hasChar " " (trim (toLowerCase input)) = false ->
         occursIn (trim (toLowerCase input)) (toLowerCase t) \/
         occursIn (trim (toLowerCase input)) (toLowerCase d) \/
         occursIn (trim (toLowerCase input)) (toLowerCase c))).
Proof.
  split.
  - intros w E. unfold onSearch. rewrite E. reflexivity.
  - intros w w' item Hq E Hshown. unfold onSearch in E.
    destruct (String.eqb_spec (trim (toLowerCase input)) "") as [Eq | _];
      [contradiction |].
    set (q := trim (toLowerCase input)) in *.
    unfold bind, gets, lift in E.
    destruct (filterItems q (itemsCache w)) as [e | filtered] eqn:Ef; [discriminate |].
    destruct (groupItems filtered) as [e | grouped] eqn:Eg; [discriminate |].
    destruct (renderRows_shown _ _ _ _ E Hshown) as (cat & group & Eown & Hin).
    pose proof (groupItems_members _ _ _ _ _ Eg Eown Hin) as Hf.
    destruct (filterItems_In _ _ _ _ Ef Hf) as [Hcache (text & Et & Hinc)].
    split; [exact Hcache |].
    destruct (searchText_fields _ _ Et) as (t & d & c & Ht & Hd & Hc & ->).
    exists t, d, c. repeat (split; [assumption |]).
    apply includes_occurs in Hinc. split; [exact Hinc |].
    intros Hsp. rewrite !toLowerCase_app in Hinc. simpl toLowerCase in Hinc.
    change (lowerChar " ") with " "%char in Hinc.
    apply occurs_beside_separator in Hinc; [| exact Hsp].
    destruct Hinc as [Hinc | Hinc]; [left; exact Hinc |].
    apply occurs_beside_separator in Hinc; [| exact Hsp].
    right. exact Hinc.
Qed.

End SearchFacts.

(** ** Seeding *)

Section SeedingFacts.
Context `{Host}.

Lemma normalizeRecord_world (it : value) (w w' : World) (r : Exn + Item) :
  normalizeRecord it w = (r, w') ->
  (w' = w \/ w' = tick w) /\
  (forall item, r = inr item ->
     clock w' = clock w + (if lacksId it then 1 else 0)).
Proof.
  rewrite normalizeRecord_run. unfold lacksId, propOf.
  destruct (getProp it "id") as [e | rawId] eqn:Eid.
  - intros E. inversion E. split; [auto | discriminate].
  - destruct (truthy rawId); simpl.
    + intros E. inversion E. split; [auto | intros; lia].
    + fold (propOf it "title").
      destruct (truthy (propOf it "title")).
      * destruct (callToLowerCase (propOf it "title")); intros E; inversion E.
        -- split; [auto | discriminate].
        -- split; [auto | intros; simpl; lia].
      * intros E. inversion E. split; [auto | intros; simpl; lia].
Qed.

Lemma seedLoop_app (done rest : list value) :
  forall w,
    seedLoop (done ++ rest) w =
    match seedLoop done w with
    | (inr _, w') => seedLoop rest w'
    | (inl e, w') => (inl e, w')
    end.
Proof.
  induction done as [| it more IH]; intros w; simpl; [reflexivity |].
  unfold bind.
  destruct (normalizeRecord it w) as [[e | item] w1]; [reflexivity |].
  destruct (idbPut item w1) as [[e | []] w2]; [reflexivity |].
  apply IH.
Qed.

(** A run of the loop logs one put per record it got through, in order,
    each for the item normalized from its record at the clock reading the
    records before it left; it changes neither the cache nor the count of
    fetches. *)
Lemma seedLoop_trace (records : list value) :
  forall w r w',
    seedLoop records w = (r, w') ->
    itemsCache w' = itemsCache w /\
    fetches w' = fetches w /\
    exists items,
      trace w' = trace w ++ map EvPut items /\
      (forall k it item,
          nth_error records k = Some it ->
          nth_error items k = Some item ->
          exists wk wk',
            normalizeRecord it wk = (inr item, wk') /\
            clock wk = clock w + derivedBefore k records) /\
      Forall themeOk items.
Proof.
  induction records as [| it rest IH]; intros w r w' E; simpl in E.
  - inversion E. subst. repeat split. exists []. simpl. rewrite app_nil_r.
    split; [reflexivity |]. split; [| constructor].
    intros [| k] ? ? ?; discriminate.
  - unfold bind in E.
    destruct (normalizeRecord it w) as [[e | item] w1] eqn:En.
    + inversion E. subst.
      destruct (normalizeRecord_world _ _ _ _ En) as [[-> | ->] _];
        repeat split; exists []; simpl; rewrite app_nil_r;
        (split; [reflexivity |]; split; [| constructor]);
        intros [| k] ? ? ? Hk; discriminate.
    + destruct (normalizeRecord_world _ _ _ _ En) as [Hw Hclock].
      specialize (Hclock _ eq_refl).
      pose proof (normalizeRecord_themeOk _ _ _ _ En) as Hok.
      assert (Hframe : itemsCache w1 = itemsCache w /\ fetches w1 = fetches w /\
                       trace w1 = trace w)
        by (destruct Hw as [-> | ->]; repeat split).
      destruct Hframe as (Hc1 & Hf1 & Ht1).
      unfold idbPut in E.
      destruct (idb_put item (store w1)) as [[e | []] s].
      * inversion E. subst. simpl. repeat split; try assumption.
        exists [item]. simpl. rewrite Ht1. split; [reflexivity |].
        split; [| constructor; [exact Hok | constructor]].
        intros [| k] it' item' Hr Hi; simpl in *.
        -- inversion Hr. inversion Hi. subst. exists w, w1.
           split; [exact En | unfold derivedBefore; simpl; lia].
        -- destruct k; discriminate.
      * apply IH in E. destruct E as (Hc & Hf & items & Ht & Hk & Hoks). simpl in *.
        repeat split; try congruence.
        exists (item :: items). split; [| split; [| constructor; assumption]].
        -- rewrite Ht, Ht1, <- app_assoc. reflexivity.
        -- intros [| k] it' item' Hr Hi; simpl in *.
           ++ inversion Hr. inversion Hi. subst. exists w, w1.
              split; [exact En | unfold derivedBefore; simpl; lia].
           ++ destruct (Hk _ _ _ Hr Hi) as (wk & wk' & Enk & Hck).
              exists wk, wk'. split; [exact Enk |].
              rewrite Hck, Hclock. unfold derivedBefore. simpl.
              destruct (lacksId it); simpl; lia.
Qed.

(** The seeding function, case by case, when the cache is empty. *)
Lemma seed_run (w : World) :
  itemsCache w = [] ->
  seedFromCatalogIfEmpty w =
  let w1 := fetched (logged EvFetch w) in
  match fetchCatalog (fetches w) with
  | FetchFails => (inr tt, logged (EvWarn FetchRejected) w1)
  | ResponseNotOk => (inr tt, logged (EvWarn CatalogNotFound) w1)
  | BodyNotJson => (inr tt, logged (EvWarn SyntaxError) w1)
  | Parsed catalog =>
      match iterate catalog with
      | inl e => (inr tt, logged (EvWarn e) w1)
      | inr records =>
          match seedLoop records w1 with
          | (inl e, w2) => (inr tt, logged (EvWarn e) w2)
          | (inr _, w2) =>
              match idb_getAll (store w2) with
              | (inl e, s) =>
                  (inr tt, logged (EvWarn e) (withStore s (logged EvGetAll w2)))
              | (inr items, s) =>
                  (inr tt, withCache items (withStore s (logged EvGetAll w2)))
              end
          end
      end
  end.
Proof.
  intros Ec.
  unfold seedFromCatalogIfEmpty, bind, gets, tryCatch, fetchJson, lift,
    loadItems, idbGetAll, consoleWarn, modify.
  rewrite Ec. cbv zeta.
  destruct (fetchCatalog (fetches w)) as [| | | catalog]; try reflexivity.
  destruct (iterate catalog) as [e | records]; [reflexivity |].
  destruct (seedLoop records _) as [[e | []] w2]; [reflexivity |].
  unfold bind.
  destruct (idb_getAll (store w2)) as [[e | items] s]; reflexivity.
Qed.

Lemma seed_skips (w : World) :
  itemsCache w <> [] -> seedFromCatalogIfEmpty w = (inr tt, w).
Proof.
  intros Hc. unfold seedFromCatalogIfEmpty, bind, gets.
  destruct (itemsCache w); [contradiction | reflexivity].
Qed.

Lemma seed_never_throws (w : World) : fst (seedFromCatalogIfEmpty w) = inr tt.
Proof.
  destruct (itemsCache w) as [| i l] eqn:Ec.
  - rewrite (seed_run w Ec). cbv zeta.
    destruct (fetchCatalog (fetches w)) as [| | | catalog]; try reflexivity.
    destruct (iterate catalog) as [e | records]; [reflexivity |].
    destruct (seedLoop records _) as [[e | []] w2]; [reflexivity |].
    destruct (idb_getAll (store w2)) as [[e | items] s]; reflexivity.
  - rewrite seed_skips; [reflexivity | rewrite Ec; discriminate].
Qed.

(** A session that starts on a store with records in it neither fetches
    the catalog nor puts anything. *)
Lemma init_on_stocked_store (w : World) (items : list Item) (s : Store) :
  idb_getAll (store w) = (inr items, s) ->
  items <> [] ->
  trace (snd (init w)) = trace w ++ [EvGetAll] /\
  fetches (snd (init w)) = fetches w /\
  store (snd (init w)) = s /\
  itemsCache (snd (init w)) = items.
Proof.
  intros Eg Hne.
  set (wl := withCache items (withStore s (logged EvGetAll w))).
  assert (El : loadItems w = (inr tt, wl)).
  { unfold loadItems, bind, idbGetAll, modify. rewrite Eg. reflexivity. }
  assert (Ei : init w = renderAll wl).
  { unfold init, bind. rewrite El, (seed_skips wl) by exact Hne. reflexivity. }
  rewrite Ei.
  destruct (renderAll_frame wl) as [(Hs & Hc & _ & Hf & Ht) _].
  rewrite Ht, Hf, Hs, Hc. repeat split.
Qed.

(** C2 (as amended): when every record was normalized and put without an
    exception, the cache is replaced by what [getAll] then returns from the
    store; when normalizing or putting a record threw, there is no reload:
    the exception is logged and the cache stays empty. *)
Theorem cache_reloaded_unless_seeding_threw (w : World) (catalog : value)
    (records : list value) :
  itemsCache w = [] ->
  fetchCatalog (fetches w) = Parsed catalog ->
  iterate catalog = inr records ->
  (forall w2 items s,
      seedLoop records (fetched (logged EvFetch w)) = (inr tt, w2) ->
      idb_getAll (store w2) = (inr items, s) ->
      seedFromCatalogIfEmpty w
        = (inr tt, withCache items (withStore s (logged EvGetAll w2))) /\
      itemsCache (snd (seedFromCatalogIfEmpty w)) = items) /\
  (forall e w2,
      seedLoop records (fetched (logged EvFetch w)) = (inl e, w2) ->
      seedFromCatalogIfEmpty w = (inr tt, logged (EvWarn e) w2) /\
      itemsCache (snd (seedFromCatalogIfEmpty w)) = [] /\
      ~ In EvGetAll (skipn (List.length (trace w)) (trace (snd (seedFromCatalogIfEmpty w))))).
Proof.
  intros Ec Ef Ei. rewrite (seed_run w Ec), Ef, Ei. cbv zeta. split.
  - intros w2 items s El Eg. rewrite El, Eg. split; reflexivity.
  - intros e w2 El. rewrite El. split; [reflexivity |].
    destruct (seedLoop_trace _ _ _ _ El) as (Hc & _ & items & Ht & _).
    simpl in *. split; [congruence |].
    rewrite Ht, <- !app_assoc, skipn_app, skipn_all, Nat.sub_diag. simpl.
    intros [Hin | Hin]; [discriminate |].
    apply in_app_or in Hin. destruct Hin as [Hin | [Hin | []]]; [| discriminate].
    apply in_map_iff in Hin. destruct Hin as (? & ? & _). discriminate.
Qed.

(** C3 (as amended): when the put of a record fails, seeding stops there:
    the records after it are neither normalized nor put, the error is
    logged with [console.warn], nothing is reloaded or counted, and the
    function returns normally. *)
Theorem failed_put_aborts_seeding (w : World) (catalog : value)
    (done rest : list value) (it : value) (wd wn : World) (item : Item)
    (e : Exn) (s : Store) :
  itemsCache w = [] ->
  fetchCatalog (fetches w) = Parsed catalog ->
  iterate catalog = inr (done ++ it :: rest) ->
  seedLoop done (fetched (logged EvFetch w)) = (inr tt, wd) ->
  normalizeRecord it wd = (inr item, wn) ->
  idb_put item (store wn) = (inl e, s) ->
  seedFromCatalogIfEmpty w
    = (inr tt, logged (EvWarn e) (withStore s (logged (EvPut item) wn))) /\
  trace (snd (seedFromCatalogIfEmpty w)) = trace wd ++ [EvPut item; EvWarn e] /\
  clock (snd (seedFromCatalogIfEmpty w)) = clock wn /\
  itemsCache (snd (seedFromCatalogIfEmpty w)) = [].
Proof.
  intros Ec Ef Ei Ed En Ep.
  rewrite (seed_run w Ec), Ef, Ei. cbv zeta.
  rewrite seedLoop_app, Ed. simpl seedLoop. unfold bind.
  rewrite En. unfold idbPut. rewrite Ep.
  destruct (seedLoop_trace _ _ _ _ Ed) as (Hc & _).
  destruct (normalizeRecord_world _ _ _ _ En) as [Hw _].
  split; [reflexivity |]. simpl.
  simpl in Hc. rewrite Ec in Hc.
  destruct Hw as [-> | ->]; simpl; rewrite <- app_assoc; repeat split; exact Hc.
Qed.

(** C7 (as amended): a call of the seeding function that finds the cache
    non-empty, as a second call does when the first one left items in the
    cache, changes nothing: no fetch, no put; and a session started on a
    store that has records loads them into the cache first, so that it
    neither fetches nor puts. *)
Theorem seeding_skipped_on_cached_items (w w1 : World) (r : Exn + unit) :
  seedFromCatalogIfEmpty w = (r, w1) ->
  itemsCache w1 <> [] ->
  r = inr tt /\
  seedFromCatalogIfEmpty w1 = (inr tt, w1) /\
  (forall w0 items s,
      idb_getAll (store w0) = (inr items, s) ->
      items <> [] ->
      trace (snd (init w0)) = trace w0 ++ [EvGetAll] /\
      fetches (snd (init w0)) = fetches w0 /\
      store (snd (init w0)) = s).
Proof.
  intros E Hc. split; [| split; [exact (seed_skips w1 Hc) |]].
  - pose proof (seed_never_throws w) as Hr. rewrite E in Hr. exact Hr.
  - intros w0 items s Eg Hne.
    destruct (init_on_stocked_store w0 items s Eg Hne) as (Ht & Hf & Hs & _).
    auto.
Qed.





Lemma derivedBefore_increases (records : list value) (i j : nat) (ri : value) :
  i < j -> nth_error records i = Some ri -> lacksId ri = true ->
  derivedBefore i records < derivedBefore j records.
Proof.
  unfold derivedBefore. revert i j.
  induction records as [| it rest IH]; intros i j Hij Hi Hl.
  - destruct i; discriminate.
  - destruct j as [| j]; [lia |]. destruct i as [| i]; simpl in *.
    + inversion Hi. subst it. rewrite Hl. simpl. lia.
    + specialize (IH i j ltac:(lia) Hi Hl).
      destruct (lacksId it); simpl; lia.
Qed.

Lemma putItems_map_EvPut (items : list Item) : putItems (map EvPut items) = items.
Proof.
  induction items as [| i r IH]; simpl; [| rewrite IH]; reflexivity.
Qed.

(** Every item a seeding run puts has a theme color that is [null] or
    truthy: the invariant of the store that hero selection relies on. *)
Lemma seeded_items_themeOk (records : list value) (w w' : World) (r : Exn + unit) :
  seedLoop records w = (r, w') ->
  Forall themeOk (putItems (skipn (List.length (trace w)) (trace w'))).
Proof.
  intros E. destruct (seedLoop_trace _ _ _ _ E) as (_ & _ & items & Ht & _ & Hok).
  rewrite Ht, skipn_app, skipn_all, Nat.sub_diag. simpl.
  rewrite putItems_map_EvPut. exact Hok.
Qed.


End SeedingFacts.

(** ** The theme colors of the cache

    The cache is only ever what [store.getAll()] returned, and the store
    only holds what the seeding loop put.  For a store that returns nothing
    but what was put into it, the theme color of every cached item is
    therefore [null] or truthy, at every point of a session. *)

Section ThemeColors.
Context `{Host}.

Variable kept : Store -> Prop.
Hypothesis put_kept :
  forall item s, themeOk item -> kept s -> kept (snd (idb_put item s)).
Hypothesis getAll_kept :
  forall s, kept s ->
    kept (snd (idb_getAll s)) /\
    forall items, fst (idb_getAll s) = inr items -> Forall themeOk items.

Lemma loadItems_keeps (w : World) :
  kept (store w) /\ Forall themeOk (itemsCache w) ->
  kept (store (snd (loadItems w))) /\
  Forall themeOk (itemsCache (snd (loadItems w))).
Proof.
  intros [Hs Hc]. unfold loadItems, bind, idbGetAll, modify.
  destruct (getAll_kept _ Hs) as [Hs' Hitems].
  destruct (idb_getAll (store w)) as [[e | items] s]; simpl in *.
  - split; [exact Hs' | exact Hc].
  - split; [exact Hs' | exact (Hitems items eq_refl)].
Qed.

Lemma seedLoop_keeps (records : list value) :
  forall w,
    kept (store w) /\ Forall themeOk (itemsCache w) ->
    kept (store (snd (seedLoop records w))) /\
    Forall themeOk (itemsCache (snd (seedLoop records w))).
Proof.
  induction records as [| it rest IH]; intros w [Hs Hc]; simpl.
  - split; assumption.
  - unfold bind.
    destruct (normalizeRecord it w) as [[e | item] w1] eqn:En;
      destruct (normalizeRecord_world _ _ _ _ En) as [[-> | ->] _];
      try (split; assumption).
    + pose proof (normalizeRecord_themeOk _ _ _ _ En) as Ok.
      unfold idbPut. pose proof (put_kept item _ Ok Hs) as Hp.
      destruct (idb_put item (store w)) as [[e | []] s]; simpl in Hp.
      * split; assumption.
      * apply IH. split; assumption.
    + pose proof (normalizeRecord_themeOk _ _ _ _ En) as Ok.
      unfold idbPut. pose proof (put_kept item _ Ok Hs) as Hp.
      change (store (tick w)) with (store w).
      destruct (idb_put item (store w)) as [[e | []] s]; simpl in Hp.
      * split; assumption.
      * apply IH. split; assumption.
Qed.

Lemma seed_keeps (w : World) :
  kept (store w) /\ Forall themeOk (itemsCache w) ->
  kept (store (snd (seedFromCatalogIfEmpty w))) /\
  Forall themeOk (itemsCache (snd (seedFromCatalogIfEmpty w))).
Proof.
  intros [Hs Hc]. destruct (itemsCache w) as [| i l] eqn:Ec.
  - assert (T : kept (store w) /\ Forall themeOk (itemsCache w))
      by (split; [exact Hs | rewrite Ec; constructor]).
    rewrite (seed_run w Ec). cbv zeta.
    assert (T1 : kept (store (fetched (logged EvFetch w))) /\
                 Forall themeOk (itemsCache (fetched (logged EvFetch w))))
      by exact T.
    destruct (fetchCatalog (fetches w)) as [| | | catalog]; try exact T.
    destruct (iterate catalog) as [e | records]; [exact T |].
    pose proof (seedLoop_keeps records _ T1) as T2.
    destruct (seedLoop records _) as [[e | []] w2]; [exact T2 |].
    simpl in T2. destruct T2 as [Hs2 Hc2].
    destruct (getAll_kept _ Hs2) as [Hs' Hitems].
    destruct (idb_getAll (store w2)) as [[e | items] s]; simpl in *.
    + split; assumption.
    + split; [exact Hs' | exact (Hitems items eq_refl)].
  - rewrite seed_skips; [| rewrite Ec; discriminate].
    simpl. split; [exact Hs | rewrite Ec; exact Hc].
Qed.

(** Start-up, however it ends, leaves a store and a cache of such
    items. *)
Lemma init_keeps (w : World) :
  kept (store w) /\ Forall themeOk (itemsCache w) ->
  kept (store (snd (init w))) /\ Forall themeOk (itemsCache (snd (init w))).
Proof.
  intros T. unfold init, bind.
  pose proof (loadItems_keeps w T) as T1.
  destruct (loadItems w) as [[e | []] w1]; [exact T1 |].
  pose proof (seed_keeps w1 T1) as T2.
  destruct (seedFromCatalogIfEmpty w1) as [[e | []] w2]; [exact T2 |].
  simpl in T2.
  destruct (renderAll_frame w2) as [(Hs & Hc & _) _].
  destruct T2 as [Ks Kc]. split; [rewrite Hs | rewrite Hc]; assumption.
Qed.

(** So does every search. *)
Lemma onSearch_keeps (input : string) (w : World) :
  kept (store w) /\ Forall themeOk (itemsCache w) ->
  kept (store (snd (onSearch input w))) /\
  Forall themeOk (itemsCache (snd (onSearch input w))).
Proof.
  intros [Ks Kc].
  assert (S : sameData w (snd (onSearch input w))).
  { unfold onSearch.
    destruct (trim (toLowerCase input) =? "")%string;
      [exact (proj1 (renderAll_frame w)) |].
    unfold bind, gets, lift.
    destruct (filterItems _ (itemsCache w)) as [e | filtered];
      [repeat split |].
    destruct (groupItems filtered) as [e | grouped]; [repeat split |].
    exact (proj1 (renderRows_sameData grouped w)). }
  destruct S as (Hs & Hc & _).
  split; [rewrite Hs | rewrite Hc]; assumption.
Qed.

End ThemeColors.

(** The reference store returns what was put into it: a session on it that
    starts with nothing stored and nothing cached has, after start-up and
    after every search, a cache whose theme colors are [null] or truthy. *)
Lemma upsert_themeOk (item : @Item intNumber) (records : list (@Item intNumber)) :
  themeOk item -> Forall themeOk records ->
  Forall themeOk (@upsert intNumber Z.compare item records).
Proof.
  intros Ok. induction records as [| r rest IH]; intros F; simpl.
  - constructor; [exact Ok | constructor].
  - inversion F as [| ? ? Hr Hrest]; subst.
    destruct (@keyCompare intNumber Z.compare (id item) (id r)).
    + constructor; assumption.
    + constructor; assumption.
    + constructor; [exact Hr | exact (IH Hrest)].
Qed.

Lemma reference_cache_themeOk (clockReadings : nat -> N)
    (fetchOutcomes : nat -> @FetchOutcome intNumber) (inputs : list string) :
  let w := firstVisit (refHost clockReadings fetchOutcomes) [] in
  Forall themeOk (itemsCache (typing inputs (snd (init w)))).
Proof.
  intros w.
  set (kept := fun s : @Store _ (refHost clockReadings fetchOutcomes) =>
                 Forall themeOk (s : list (@Item intNumber))).
  assert (Hput : forall item s, themeOk item -> kept s ->
                                kept (snd (idb_put item s))).
  { intros item s Ok Ks. unfold kept in *. simpl. unfold refPut.
    destruct (validKey (id item)); simpl; [apply upsert_themeOk |]; assumption. }
  assert (Hget : forall s, kept s ->
                   kept (snd (idb_getAll s)) /\
                   forall items, fst (idb_getAll s) = inr items ->
                                 Forall themeOk items).
  { intros s Ks. split; [exact Ks |].
    intros items E. simpl in E. inversion E. subst. exact Ks. }
  assert (T : kept (store (snd (init w))) /\
              Forall themeOk (itemsCache (snd (init w)))).
  { apply (init_keeps kept Hput Hget). split; constructor. }
  assert (Tall : forall v,
             kept (store v) /\ Forall themeOk (itemsCache v) ->
             kept (store (typing inputs v)) /\
             Forall themeOk (itemsCache (typing inputs v))).
  { unfold typing. induction inputs as [| input rest IH]; intros v Tv; simpl.
    - exact Tv.
    - apply IH. apply (onSearch_keeps kept). exact Tv. }
  exact (proj2 (Tall _ T)).
Qed.

(** ** The claims on sample sessions *)

(** Nine items in one category make two rows of eight slots: the first
    holds the first eight items, the second the ninth item and seven
    placeholders. *)
Lemma pagination_invariant_witness :
  let grouped := [("Drama"%string, dramas 9)] in
  let w := browsing (dramas 9) in
  let w' := snd (renderRows grouped w) in
  renderRows grouped w = (inr tt, w') /\
  exists first last,
    sections (rowsEl w') = [first; last] /\
    rowSlots first = map Some (firstn 8 (dramas 9)) /\
    rowSlots last = Some (film "8" "Film" "Drama" VNull) :: repeat None 7.
Proof.
  intros grouped w w'.
  assert (E : renderRows grouped w = (inr tt, w')) by reflexivity.
  split; [exact E |].
  destruct (proj2 (pagination_invariant grouped w w' E)) as (blocks & Es & F).
  assert (Ek : objectKeys grouped = ["Drama"%string]) by reflexivity.
  rewrite Ek in F.
  inversion F as [| cat block cats rest Hblock Frest]; subst.
  inversion Frest; subst.
  destruct Hblock as (group & Eg & Hlen & Hrows).
  assert (Egroup : group = dramas 9) by (inversion Eg; reflexivity).
  subst group.
  change (List.length (dramas 9)) with 9 in Hlen, Hrows.
  change ((9 + 7) / 8) with 2 in Hlen.
  destruct block as [| first [| last [| extra more]]]; try discriminate Hlen.
  exists first, last. split; [rewrite Es; reflexivity |].
  split.
  - exact (proj1 (proj2 (Hrows 0 first eq_refl)) (le_n 2)).
  - exact (proj2 (proj2 (proj2 (Hrows 1 last eq_refl)) eq_refl)).
Defined.

(** C5, counterexample: the search text [a b] matches the end of the
    title followed by the start of the description, and is in none of the
    three fields. *)
Lemma search_matches_across_fields :
  let w := browsing [alphaBeta] in
  let w' := snd (onSearch "a b" w) in
  onSearch "a b" w = (inr tt, w') /\
  In alphaBeta (shownItems (rowsEl w')) /\
  coerce (title alphaBeta) = inr "Alpha"%string /\
  coerce (orElse (description alphaBeta) (VStr "")) = inr "Beta"%string /\
  coerce (orElse (category alphaBeta) (VStr "")) = inr "Greek"%string /\
  includes (toLowerCase "Alpha") (trim (toLowerCase "a b")) = false /\
  includes (toLowerCase "Beta") (trim (toLowerCase "a b")) = false /\
  includes (toLowerCase "Greek") (trim (toLowerCase "a b")) = false.
Proof.
  intros w w'. repeat split; try reflexivity.
  left. reflexivity.
Qed.

Lemma search_narrowing_witness :
  let w := browsing [alphaBeta; uncategorized] in
  let w' := snd (onSearch " ALPHA" w) in
  trim (toLowerCase " ALPHA") <> ""%string /\
  onSearch " ALPHA" w = (inr tt, w') /\
  In alphaBeta (shownItems (rowsEl w')) /\
  In alphaBeta (itemsCache w).
Proof.
  intros w w'.
  assert (Hq : trim (toLowerCase " ALPHA") <> ""%string) by (vm_compute; discriminate).
  assert (E : onSearch " ALPHA" w = (inr tt, w')) by reflexivity.
  assert (Hs : In alphaBeta (shownItems (rowsEl w'))) by (left; reflexivity).
  repeat (split; [assumption |]).
  exact (proj1 (proj2 (search_narrowing " ALPHA") w w' alphaBeta Hq E Hs)).
Defined.

(** Of two items the themed one, second in the cache, is the hero. *)
Lemma hero_selection_witness :
  let plain := film "m1" "First" "Drama" VNull in
  let themed := film "m2" "Second" "Drama" (VStr "#123456") in
  let w := browsing [plain; themed] in
  Forall themeOk (itemsCache w) /\
  pickHero (itemsCache w) = themed.
Proof.
  intros plain themed w.
  assert (Ok : Forall themeOk (itemsCache w)).
  { apply Forall_cons; [left; reflexivity |].
    apply Forall_cons; [right; reflexivity | apply Forall_nil]. }
  split; [exact Ok |].
  apply (proj1 (proj2 (hero_selection w Ok)) [plain] themed []).
  - reflexivity.
  - apply Forall_cons; [reflexivity | apply Forall_nil].
  - discriminate.
Defined.

Lemma featured_fallback_witness :
  let items := [alphaBeta; uncategorized] in
  let g := [("Greek"%string, [alphaBeta]); ("Featured"%string, [uncategorized])] in
  groupItems items = inr g /\
  In uncategorized items /\
  truthy (category uncategorized) = false /\
  exists l, ownGroup "Featured" g = Some l /\ In uncategorized l.
Proof.
  intros items g.
  assert (E : groupItems items = inr g) by reflexivity.
  assert (Hin : In uncategorized items) by (right; left; reflexivity).
  assert (Hc : truthy (category uncategorized) = false) by reflexivity.
  repeat (split; [assumption |]).
  exact (proj1 (featured_fallback (H0 := quietHost) items g uncategorized E Hin Hc)).
Defined.

(** A catalog of one record seeds the store and is loaded into the
    cache. *)
Lemma cache_reloaded_witness :
  let w := firstVisit alphaHost [] in
  itemsCache w = [] /\
  @fetchCatalog _ alphaHost (fetches w) = Parsed (VArr [alphaRecord]) /\
  iterate (VArr [alphaRecord]) = inr [alphaRecord] /\
  itemsCache (snd (seedFromCatalogIfEmpty w)) = [alphaAt "1700000000000"].
Proof.
  intros w.
  assert (Ec : itemsCache w = []) by reflexivity.
  assert (Ef : @fetchCatalog _ alphaHost (fetches w) = Parsed (VArr [alphaRecord]))
    by reflexivity.
  assert (Ei : iterate (VArr [alphaRecord]) = inr [alphaRecord]) by reflexivity.
  repeat (split; [assumption |]).
  refine (proj2 (proj1 (cache_reloaded_unless_seeding_threw w _ _ Ec Ef Ei)
                   (snd (seedLoop [alphaRecord] (fetched (logged EvFetch w))))
                   [alphaAt "1700000000000"] [alphaAt "1700000000000"] _ _));
    reflexivity.
Defined.

(** C2, counterexample: the put of the second record fails; the first
    record is in the store, and the cache, which is not reloaded, is empty. *)
Lemma cache_not_reloaded_after_failed_put :
  let w := firstVisit badKeyHost [] in
  let w' := snd (seedFromCatalogIfEmpty w) in
  trace w' = [EvFetch; EvPut (alphaAt "1700000000000"); EvPut badKeyItem;
              EvWarn (IDBError "DataError")] /\
  @idb_getAll _ badKeyHost (store w') = (inr [alphaAt "1700000000000"], store w') /\
  itemsCache w' = [].
Proof.
  intros w w'. repeat split; reflexivity.
Qed.

(** C3, counterexample: after the failed put of the second record the
    third record, whose id is ['b'], is never put, and all that is reported
    is the warning. *)
Lemma records_after_failed_put_skipped :
  let w := firstVisit badKeyHost [] in
  let w' := snd (seedFromCatalogIfEmpty w) in
  putItems (trace w') = [alphaAt "1700000000000"; badKeyItem] /\
  filter (fun e => negb (isRequest e)) (trace w') = [EvWarn (IDBError "DataError")] /\
  ~ In (VStr "b") (map id (putItems (trace w'))).
Proof.
  intros w w'. split; [reflexivity |]. split; [reflexivity |].
  intros [E | [E | []]]; discriminate E.
Qed.

Lemma failed_put_aborts_seeding_witness :
  let w := firstVisit badKeyHost [] in
  let wd := snd (seedLoop [alphaRecord] (fetched (logged EvFetch w))) in
  @idb_put _ badKeyHost badKeyItem (store wd) = (inl (IDBError "DataError"), store wd) /\
  trace (snd (seedFromCatalogIfEmpty w))
    = trace wd ++ [EvPut badKeyItem; EvWarn (IDBError "DataError")].
Proof.
  intros w wd.
  assert (Ep : @idb_put _ badKeyHost badKeyItem (store wd)
               = (inl (IDBError "DataError"), store wd)) by reflexivity.
  split; [exact Ep |].
  refine (proj1 (proj2 (failed_put_aborts_seeding w
            (VArr [alphaRecord; badKeyRecord; VObj [("id", VStr "b")]])
            [alphaRecord] [VObj [("id", VStr "b")]] badKeyRecord wd wd badKeyItem
            (IDBError "DataError") (store wd) _ _ _ _ _ Ep)));
    reflexivity.
Defined.

(** C7, counterexample: the first call stores one item and throws on the
    [null] record, so the cache stays empty; the second call, on a store
    that is not empty, fetches the catalog again and puts the first record
    again, under a new id. *)
Lemma second_seeding_fetches_again :
  let w := firstVisit nullRecordHost [] in
  let w1 := snd (seedFromCatalogIfEmpty w) in
  let w2 := snd (seedFromCatalogIfEmpty w1) in
  store w1 = [alphaAt "1700000000000"] /\
  itemsCache w1 = [] /\
  fetches w1 = 1 /\
  fetches w2 = 2 /\
  putItems (trace w2) = [alphaAt "1700000000000"; alphaAt "1700000000001"] /\
  store w2 = [alphaAt "1700000000000"; alphaAt "1700000000001"].
Proof.
  intros w w1 w2. repeat split; reflexivity.
Qed.

Lemma seeding_skipped_witness :
  let w := firstVisit alphaHost [] in
  let w1 := snd (seedFromCatalogIfEmpty w) in
  seedFromCatalogIfEmpty w = (inr tt, w1) /\
  itemsCache w1 <> [] /\
  seedFromCatalogIfEmpty w1 = (inr tt, w1).
Proof.
  intros w w1.
  assert (E : seedFromCatalogIfEmpty w = (inr tt, w1)) by reflexivity.
  assert (Hc : itemsCache w1 <> []) by (intros X; discriminate X).
  repeat (split; [assumption |]).
  exact (proj1 (proj2 (seeding_skipped_on_cached_items w w1 (inr tt) E Hc))).
Defined.



(** * More of the script *)

(** ** Grouping: order and failure *)

Section GroupingOrder.
Context `{Host}.

Lemma ownGroup_None (g : Groups) (k : string) :
  ownGroup k g = None <-> ~ In k (map fst g).
Proof.
  induction g as [| [k0 l0] r IH]; simpl.
  - split; [intros _ [] | reflexivity].
  - destruct (String.eqb_spec k0 k) as [-> | Hne].
    + split; [discriminate | intros N; exfalso; apply N; left; reflexivity].
    + rewrite IH. split.
      * intros N [E | Hin]; [contradiction | exact (N Hin)].
      * intros N Hin. apply N. right. exact Hin.
Qed.

Lemma existsb_key (k : string) (keys : list string) :
  existsb (String.eqb k) keys = true <-> In k keys.
Proof.
  rewrite existsb_exists. split.
  - intros (x & Hx & E). apply String.eqb_eq in E. subst x. exact Hx.
  - intros Hin. exists k. split; [exact Hin | apply String.eqb_refl].
Qed.

Lemma pushTo_keys (key : string) (item : Item) (g : Groups) :
  map fst (pushTo key item g) = map fst g.
Proof.
  induction g as [| [k0 l0] r IH]; simpl; [reflexivity |].
  destruct (k0 =? key)%string; simpl; [| rewrite IH]; reflexivity.
Qed.

Lemma groupStep_keys (acc acc' : Groups) (item : Item) (key : string) :
  groupStep acc item = inr acc' ->
  keyOf item = inr key ->
  map fst acc' =
  if existsb (String.eqb key) (map fst acc) then map fst acc
  else map fst acc ++ [key].
Proof.
  unfold groupStep, keyOf. intros E Hk. rewrite Hk in E.
  destruct (ownGroup key acc) as [l |] eqn:Eown.
  - inversion E. subst acc'. rewrite pushTo_keys.
    assert (Hin : In key (map fst acc)).
    { destruct (in_dec string_dec key (map fst acc)) as [Hin | Hout];
        [exact Hin |].
      apply ownGroup_None in Hout. congruence. }
    apply existsb_key in Hin. rewrite Hin. reflexivity.
  - destruct (inherited key); [discriminate |].
    inversion E. subst acc'. rewrite map_app. simpl.
    destruct (existsb (String.eqb key) (map fst acc)) eqn:Ex; [| reflexivity].
    apply existsb_key in Ex. apply ownGroup_None in Eown. contradiction.
Qed.

Lemma newKeys_ext (ks : list string) :
  forall seen seen',
    (forall k, In k seen <-> In k seen') ->
    newKeys seen ks = newKeys seen' ks.
Proof.
  induction ks as [| k r IH]; intros seen seen' Hs; simpl; [reflexivity |].
  assert (Ex : existsb (String.eqb k) seen = existsb (String.eqb k) seen').
  { apply eq_true_iff_eq. rewrite !existsb_key. apply Hs. }
  rewrite Ex. destruct (existsb (String.eqb k) seen').
  - apply IH, Hs.
  - f_equal. apply IH. intros x. simpl. rewrite Hs. reflexivity.
Qed.

Lemma newKeys_fresh (ks : list string) :
  forall seen,
    NoDup (newKeys seen ks) /\
    forall k, In k (newKeys seen ks) -> ~ In k seen.
Proof.
  induction ks as [| k r IH]; intros seen; simpl.
  - split; [constructor | intros ? []].
  - destruct (existsb (String.eqb k) seen) eqn:Ex; [apply IH |].
    destruct (IH (k :: seen)) as [Hnd Hfresh]. split.
    + constructor; [| exact Hnd].
      intros Hin. apply (Hfresh _ Hin). left. reflexivity.
    + intros x [<- | Hin].
      * intros Hin. apply existsb_key in Hin. congruence.
      * intros Hs. apply (Hfresh _ Hin). right. exact Hs.
Qed.

(** The keys of the groups: those the accumulator had, then the new ones
    in the order in which the items bring them. *)
Lemma groupItemsFrom_keys (items : list Item) :
  forall acc g ks,
    groupItemsFrom acc items = inr g ->
    map keyOf items = map inr ks ->
    map fst g = map fst acc ++ newKeys (map fst acc) ks.
Proof.
  induction items as [| item rest IH]; intros acc g ks E Hks; simpl in *.
  - destruct ks; [| discriminate]. inversion E. simpl. rewrite app_nil_r. reflexivity.
  - destruct ks as [| k ks']; [discriminate |]. simpl in Hks.
    inversion Hks as [[Hk Hrest]].
    destruct (groupStep acc item) as [e | acc'] eqn:Es; [discriminate |].
    rewrite (IH _ _ _ E Hrest), (groupStep_keys _ _ _ _ Es Hk). simpl.
    destruct (existsb (String.eqb k) (map fst acc)); [reflexivity |].
    rewrite <- app_assoc. simpl. f_equal. f_equal.
    apply newKeys_ext. intros x. rewrite in_app_iff. simpl. tauto.
Qed.

Lemma groupStep_groupOf (acc acc' : Groups) (item : Item) (k : string) :
  groupStep acc item = inr acc' ->
  groupOf acc' k = groupOf acc k ++ (if hasKey k item then [item] else []).
Proof.
  intros E. destruct (groupStep_inr _ _ _ E) as (key & Hkey & Hacc).
  unfold groupOf, hasKey. rewrite Hacc, Hkey.
  rewrite (String.eqb_sym key k).
  destruct (k =? key)%string.
  - destruct (ownGroup k acc); reflexivity.
  - rewrite app_nil_r. reflexivity.
Qed.

Lemma groupItemsFrom_groupOf (items : list Item) (k : string) :
  forall acc g,
    groupItemsFrom acc items = inr g ->
    groupOf g k = groupOf acc k ++ filter (hasKey k) items.
Proof.
  induction items as [| item rest IH]; intros acc g E; simpl in *.
  - inversion E. rewrite app_nil_r. reflexivity.
  - destruct (groupStep acc item) as [e | acc'] eqn:Es; [discriminate |].
    rewrite (IH _ _ E), (groupStep_groupOf _ _ _ k Es), <- app_assoc.
    destruct (hasKey k item); reflexivity.
Qed.

Lemma groupItems_keyed_items (items : list Item) :
  forall acc g,
    groupItemsFrom acc items = inr g ->
    exists ks, map keyOf items = map inr ks.
Proof.
  induction items as [| item rest IH]; intros acc g E; simpl in *.
  - exists []. reflexivity.
  - destruct (groupStep acc item) as [e | acc'] eqn:Es; [discriminate |].
    destruct (groupStep_inr _ _ _ Es) as (key & Hkey & _).
    destruct (IH _ _ E) as (ks & Hks).
    exists (key :: ks). simpl. rewrite Hkey, Hks. reflexivity.
Qed.

(** X1: the groups keep the order of the list that was grouped: the group
    of a key lists, in that order, exactly the items with that key, and the
    keys come in the order of their first item, each once. *)
Theorem grouping_keeps_order (items : list Item) (g : Groups) :
  groupItems items = inr g ->
  (forall k, groupOf g k = filter (hasKey k) items) /\
  (exists ks, map keyOf items = map inr ks /\ map fst g = newKeys [] ks) /\
  NoDup (map fst g).
Proof.
  intros E. unfold groupItems in E.
  destruct (groupItems_keyed_items _ _ _ E) as (ks & Hks).
  pose proof (groupItemsFrom_keys _ _ _ _ E Hks) as Hkeys. simpl in Hkeys.
  split; [| split].
  - intros k. exact (groupItemsFrom_groupOf _ k _ _ E).
  - exists ks. split; [exact Hks | exact Hkeys].
  - rewrite Hkeys. apply newKeys_fresh.
Qed.

Lemma coerce_error (v : value) (e : Exn) : coerce v = inl e -> e = TypeError.
Proof.
  unfold coerce. destruct (toStr v); [discriminate |].
  intros E. inversion E. reflexivity.
Qed.

Lemma groupStep_error (acc : Groups) (item : Item) (e : Exn) :
  groupStep acc item = inl e -> e = TypeError.
Proof.
  unfold groupStep.
  destruct (coerce (orElse (category item) (VStr "Featured"))) as [e' | key] eqn:Ec.
  - intros E. inversion E. subst e'. exact (coerce_error _ _ Ec).
  - destruct (ownGroup key acc); [discriminate |].
    destruct (inherited key); [| discriminate].
    intros E. inversion E. reflexivity.
Qed.

Lemma groupItemsFrom_groupable (items : list Item) :
  forall acc,
    Forall (fun k => inherited k = false) (map fst acc) ->
    ((exists g, groupItemsFrom acc items = inr g) <-> forallb groupable items = true) /\
    (forall e, groupItemsFrom acc items = inl e -> e = TypeError).
Proof.
  induction items as [| item rest IH]; intros acc Hacc; simpl.
  - split; [split; eauto | discriminate].
  - destruct (groupStep acc item) as [e | acc'] eqn:Es.
    + split.
      * split; [intros (g & E); discriminate |].
        intros Hall. apply andb_true_iff in Hall. destruct Hall as [Hg _].
        exfalso. unfold groupable in Hg. unfold groupStep in Es.
        fold (keyOf item) in Es. destruct (keyOf item) as [e' | key]; [discriminate |].
        destruct (ownGroup key acc); [discriminate |].
        apply negb_true_iff in Hg. rewrite Hg in Es. discriminate.
      * intros e' E. inversion E. subst e'. exact (groupStep_error _ _ _ Es).
    + assert (Hitem : groupable item = true /\
                      Forall (fun k => inherited k = false) (map fst acc')).
      { destruct (groupStep_inr _ _ _ Es) as (key & Hkey & _).
        pose proof (groupStep_keys _ _ _ _ Es Hkey) as Hkeys.
        unfold groupable. rewrite Hkey.
        destruct (existsb (String.eqb key) (map fst acc)) eqn:Ex.
        - apply existsb_key in Ex. rewrite Hkeys. split; [| exact Hacc].
          rewrite (proj1 (Forall_forall _ _) Hacc _ Ex). reflexivity.
        - assert (Hin : inherited key = false).
          { unfold groupStep in Es. fold (keyOf item) in Es. rewrite Hkey in Es.
            destruct (ownGroup key acc) eqn:Eo.
            - exfalso. assert (Hk : In key (map fst acc)).
              { destruct (in_dec string_dec key (map fst acc)) as [Hk | Hk];
                  [exact Hk |].
                apply ownGroup_None in Hk. congruence. }
              apply existsb_key in Hk. congruence.
            - destruct (inherited key); [discriminate | reflexivity]. }
          rewrite Hin, Hkeys. split; [reflexivity |].
          apply Forall_app. split; [exact Hacc | repeat constructor; exact Hin]. }
      destruct Hitem as [Hg Hacc']. rewrite Hg. simpl.
      exact (IH acc' Hacc').
Qed.

(** X2: grouping throws exactly when some item cannot be filed, because
    its category does not convert to a key or converts to the name of a
    property of [Object.prototype]; what it throws is a [TypeError]. *)
Theorem grouping_throws_exactly (items : list Item) :
  ((exists g, groupItems items = inr g) <-> forallb groupable items = true) /\
  (forall e, groupItems items = inl e -> e = TypeError).
Proof.
  apply groupItemsFrom_groupable. constructor.
Qed.

End GroupingOrder.

(** ** The order of [Object.keys] *)

Section KeyOrder.
Context `{Host}.

Lemma insertIndex_perm (n : N) (k : string) (l : list (N * string)) :
  Permutation (insertIndex n k l) ((n, k) :: l).
Proof.
  induction l as [| [m k0] r IH]; simpl; [reflexivity |].
  destruct (n <=? m)%N; [reflexivity |].
  rewrite IH. apply perm_swap.
Qed.

Lemma insertIndex_sorted (n : N) (k : string) (l : list (N * string)) :
  Sorted (fun a b => (fst a <= fst b)%N) l ->
  Sorted (fun a b => (fst a <= fst b)%N) (insertIndex n k l).
Proof.
  induction l as [| [m k0] r IH]; simpl; intros Hs.
  - repeat constructor.
  - destruct (N.leb_spec n m) as [Hle | Hgt].
    + constructor; [exact Hs | constructor; exact Hle].
    + inversion Hs as [| ? ? Hr Hhd]. subst. constructor; [exact (IH Hr) |].
      destruct r as [| [m' k'] r']; simpl.
      * constructor. simpl. lia.
      * destruct (N.leb_spec n m'); constructor; simpl.
        -- lia.
        -- inversion Hhd. assumption.
Qed.

Lemma filter_partition_perm {A} (p : A -> bool) (l : list A) :
  Permutation (filter p l ++ filter (fun a => negb (p a)) l) l.
Proof.
  induction l as [| a r IH]; simpl; [reflexivity |].
  destruct (p a); simpl.
  - constructor. exact IH.
  - symmetry. apply Permutation_cons_app. symmetry. exact IH.
Qed.

Lemma objectKeys_indexed (g : Groups) :
  objectKeys g =
  map snd (indexed (map fst g)) ++ filter (fun k => negb (isIndexKey k)) (map fst g).
Proof.
  unfold objectKeys, indexed, isIndexKey. f_equal.
  apply filter_ext. intros k. destruct (arrayIndex k); reflexivity.
Qed.

Lemma indexed_facts (keys : list string) :
  Permutation (map snd (indexed keys)) (filter isIndexKey keys) /\
  Sorted (fun a b => (fst a <= fst b)%N) (indexed keys) /\
  Forall (fun p => arrayIndex (snd p) = Some (fst p)) (indexed keys).
Proof.
  induction keys as [| k r (Hp & Hs & Hf)]; simpl.
  - repeat split; constructor.
  - unfold isIndexKey. destruct (arrayIndex k) as [n |] eqn:Ek.
    + split; [| split].
      * rewrite (Permutation_map snd (insertIndex_perm n k (indexed r))). simpl.
        constructor. exact Hp.
      * apply insertIndex_sorted, Hs.
      * apply (Permutation_Forall (Permutation_sym (insertIndex_perm n k (indexed r)))).
        constructor; [exact Ek | exact Hf].
    + repeat split; assumption.
Qed.

Lemma object_keys_perm (g : Groups) : Permutation (objectKeys g) (map fst g).
Proof.
  rewrite objectKeys_indexed, (proj1 (indexed_facts (map fst g))).
  apply filter_partition_perm.
Qed.

(** X3: [Object.keys] returns every key of the groups once; the keys that
    are array indices come first, in ascending numeric order, then the other
    keys in insertion order; with no array index among them the keys come
    out in insertion order. *)
Theorem object_keys_order (g : Groups) :
  Permutation (objectKeys g) (map fst g) /\
  (exists idx,
      objectKeys g = map snd idx ++ filter (fun k => negb (isIndexKey k)) (map fst g) /\
      Sorted (fun a b => (fst a <= fst b)%N) idx /\
      Forall (fun p => arrayIndex (snd p) = Some (fst p)) idx) /\
  (forallb (fun k => negb (isIndexKey k)) (map fst g) = true ->
   objectKeys g = map fst g).
Proof.
  destruct (indexed_facts (map fst g)) as (Hp & Hs & Hf).
  split; [| split].
  - apply object_keys_perm.
  - exists (indexed (map fst g)). split; [apply objectKeys_indexed | auto].
  - intros Hall. rewrite objectKeys_indexed.
    assert (Hidx : forall keys,
               forallb (fun k => negb (isIndexKey k)) keys = true ->
               indexed keys = [] /\ filter (fun k => negb (isIndexKey k)) keys = keys).
    { induction keys as [| k r IH]; simpl; [auto |].
      intros Hk. apply andb_true_iff in Hk. destruct Hk as [Hk Hr].
      destruct (IH Hr) as [Hi Hfl]. rewrite Hk, Hfl. split; [| reflexivity].
      unfold isIndexKey in Hk. destruct (arrayIndex k); [discriminate | exact Hi]. }
    destruct (Hidx _ Hall) as [-> ->]. reflexivity.
Qed.

End KeyOrder.

(** ** What a rendering shows *)

Section Shown.
Context `{Host}.

Lemma realItems_app (a b : list (option Item)) :
  realItems (a ++ b) = realItems a ++ realItems b.
Proof.
  unfold realItems. apply flat_map_app.
Qed.

Lemma realItems_padRaw (group : list Item) : realItems (padRaw group) = group.
Proof.
  rewrite padRaw_repeat, realItems_app.
  assert (Hn : forall n, realItems (repeat None n) = []).
  { induction n; simpl; auto. }
  rewrite Hn, app_nil_r. unfold realItems.
  induction group as [| x r IH]; simpl; [reflexivity | f_equal; exact IH].
Qed.

Lemma slices_concat {A} (raw : list A) (r : nat) :
  List.length raw = 8 * r ->
  forall c k, k + c = r ->
    List.concat (map (fun j => slice (8 * j) (8 * j + 8) raw) (seq k c))
    = skipn (8 * k) raw.
Proof.
  intros Hlen. induction c as [| c IH]; intros k Hk; cbn [seq map List.concat].
  - rewrite skipn_all2; [reflexivity | lia].
  - rewrite (IH (S k)) by lia. unfold slice.
    rewrite <- (firstn_skipn (8 * k + 8) raw) at 3.
    rewrite skipn_app, length_firstn.
    replace (8 * k - Nat.min (8 * k + 8) (List.length raw)) with 0 by lia.
    replace (8 * S k) with (8 * k + 8) by lia. reflexivity.
Qed.

Lemma rowAt_slots (cat : string) (raw : list (option Item)) (l : list nat) :
  forall block,
    Forall2 (rowAt cat raw) (map (fun j => 8 * j) l) block ->
    map rowSlots block = map (fun j => slice (8 * j) (8 * j + 8) raw) l.
Proof.
  induction l as [| j l' IH]; intros block F; cbn [map] in *.
  - inversion F. reflexivity.
  - inversion F as [| s row ss rows [_ Hc] Fr]. subst. cbn [map].
    rewrite (IH _ Fr). f_equal. apply makeCards_slots in Hc. exact Hc.
Qed.

(** The rows of a category that was rendered to the end: their headings,
    and their items. *)
Lemma block_contents (cat : string) (group : list Item) (block : list Row) :
  Forall2 (rowAt cat (padRaw group))
    (starts (List.length (padRaw group)) 0 (List.length (padRaw group))) block ->
  (forall j row, nth_error block j = Some row ->
     heading row = if (j =? 0)%nat then cat else (cat ++ " (more)")%string) /\
  flat_map (fun row => realItems (rowSlots row)) block = group.
Proof.
  rewrite padRaw_length.
  set (r := (List.length group + 7) / 8).
  change (starts (8 * r) 0 (8 * r)) with (starts (8 * r) (8 * 0) (8 * r)).
  rewrite starts_seq by lia. rewrite Nat.sub_0_r.
  intros F. split.
  - destruct (Forall2_map_seq _ _ _ _ _ F) as [_ Hrow].
    intros j row Ej. pose proof (Hrow _ _ Ej) as Hat. cbv beta in Hat.
    rewrite Nat.add_0_l in Hat. destruct Hat as [Hh _]. rewrite Hh.
    destruct j as [| j]; simpl (_ =? _)%nat.
    + rewrite Nat.mul_0_r. simpl. clear. induction cat; simpl; congruence.
    + destruct (Nat.ltb_spec 0 (8 * S j)); [reflexivity | lia].
  - pose proof (rowAt_slots _ _ _ _ F) as Hslots.
    assert (Hflat : forall rows : list Row,
               flat_map (fun row => realItems (rowSlots row)) rows
               = realItems (List.concat (map rowSlots rows))).
    { induction rows as [| row rest IH]; simpl; [reflexivity |].
      rewrite realItems_app, IH. reflexivity. }
    rewrite Hflat, Hslots.
    rewrite (slices_concat (padRaw group) r (padRaw_length group) r 0 eq_refl).
    change (8 * 0) with 0. rewrite skipn_O. apply realItems_padRaw.
Qed.

Lemma shownItems_rows (rows : list RowsChild) :
  shownItems rows = flat_map (fun row => realItems (rowSlots row)) (sections rows).
Proof.
  unfold shownItems, sections.
  induction rows as [| [| r] rest IH]; simpl; [reflexivity | exact IH |].
  rewrite IH. reflexivity.
Qed.

Lemma flat_map_blocks (grouped : Groups) (keys : list string) (blocks : list (list Row)) :
  Forall2 (renderedBlock grouped) keys blocks ->
  flat_map (fun row => realItems (rowSlots row)) (List.concat blocks)
  = flat_map (groupOf grouped) keys.
Proof.
  induction 1 as [| cat block keys' blocks' (group & Eg & Fr) _ IH]; simpl;
    [reflexivity |].
  rewrite flat_map_app, IH. f_equal.
  unfold groupOf. rewrite Eg. exact (proj2 (block_contents _ _ _ Fr)).
Qed.

(** X4: in a finished rendering the first row of a category is headed by
    the name of the category and every further row of the category by the
    name followed by [' (more)']. *)
Theorem rows_headed_by_category (grouped : Groups) (w w' : World) :
  renderRows grouped w = (inr tt, w') ->
  exists blocks,
    sections (rowsEl w') = List.concat blocks /\
    Forall2 (fun cat block =>
               forall j row,
                 nth_error block j = Some row ->
                 heading row = if (j =? 0)%nat then cat else (cat ++ " (more)")%string)
            (objectKeys grouped) blocks.
Proof.
  intros E. destruct (renderRows_ok _ _ _ E) as (blocks & Es & F).
  exists blocks. split; [exact Es |].
  eapply Forall2_impl; [| exact F].
  intros cat block (group & _ & Fr). exact (proj1 (block_contents _ _ _ Fr)).
Qed.

Lemma shown_is_groups (grouped : Groups) (w w' : World) :
  renderRows grouped w = (inr tt, w') ->
  shownItems (rowsEl w') = flat_map (groupOf grouped) (objectKeys grouped).
Proof.
  intros E. destruct (renderRows_ok _ _ _ E) as (blocks & Es & F).
  rewrite shownItems_rows, Es. exact (flat_map_blocks _ _ _ F).
Qed.

(** X5: a finished rendering shows the items of every group, each once
    and in the order of the group, the groups in the order of
    [Object.keys]: padding and chunking lose, repeat and move nothing. *)
Theorem rendering_shows_groups_in_order (grouped : Groups) (w w' : World) :
  renderRows grouped w = (inr tt, w') ->
  shownItems (rowsEl w') = flat_map (groupOf grouped) (objectKeys grouped) /\
  List.length (shownItems (rowsEl w'))
    = list_sum (map (fun k => List.length (groupOf grouped k)) (objectKeys grouped)).
Proof.
  intros E. rewrite (shown_is_groups _ _ _ E). split; [reflexivity |].
  induction (objectKeys grouped) as [| k r IH]; simpl; [reflexivity |].
  rewrite length_app, IH. reflexivity.
Qed.

Lemma groupOf_own_keys (g : Groups) :
  NoDup (map fst g) -> flat_map (groupOf g) (map fst g) = flat_map snd g.
Proof.
  induction g as [| [k0 l0] r IH]; simpl; intros Hnd; [reflexivity |].
  inversion Hnd as [| ? ? Hout Hr]. subst.
  unfold groupOf at 1. simpl. rewrite String.eqb_refl. f_equal.
  rewrite <- (IH Hr). rewrite !flat_map_concat_map. f_equal.
  apply map_ext_in. intros k Hk. unfold groupOf. simpl.
  destruct (String.eqb_spec k0 k) as [-> | _]; [contradiction | reflexivity].
Qed.

Lemma pushTo_perm (key : string) (x : Item) (g : Groups) (l : list Item) :
  ownGroup key g = Some l ->
  Permutation (flat_map snd (pushTo key x g)) (flat_map snd g ++ [x]).
Proof.
  revert l. induction g as [| [k0 l0] r IH]; simpl; intros l E; [discriminate |].
  destruct (k0 =? key)%string; simpl.
  - rewrite <- !app_assoc. apply Permutation_app_head, Permutation_app_comm.
  - rewrite <- app_assoc. apply Permutation_app_head. exact (IH _ E).
Qed.

Lemma groupStep_perm (acc acc' : Groups) (x : Item) :
  groupStep acc x = inr acc' ->
  Permutation (flat_map snd acc') (flat_map snd acc ++ [x]).
Proof.
  unfold groupStep.
  destruct (coerce (orElse (category x) (VStr "Featured"))) as [e | key];
    [discriminate |].
  destruct (ownGroup key acc) as [l |] eqn:Eown.
  - intros E. inversion E. exact (pushTo_perm _ _ _ _ Eown).
  - destruct (inherited key); [discriminate |].
    intros E. inversion E. rewrite flat_map_app. simpl. reflexivity.
Qed.

Lemma groupItemsFrom_perm (items : list Item) :
  forall acc g,
    groupItemsFrom acc items = inr g ->
    Permutation (flat_map snd g) (flat_map snd acc ++ items).
Proof.
  induction items as [| x rest IH]; intros acc g E; simpl in E.
  - inversion E. rewrite app_nil_r. reflexivity.
  - destruct (groupStep acc x) as [e | acc'] eqn:Es; [discriminate |].
    rewrite (IH _ _ E), (groupStep_perm _ _ _ Es), <- app_assoc. reflexivity.
Qed.

Lemma groupItems_NoDup (items : list Item) (g : Groups) :
  groupItems items = inr g -> NoDup (map fst g).
Proof.
  intros E. unfold groupItems in E.
  destruct (groupItems_keyed_items _ _ _ E) as (ks & Hks).
  rewrite (groupItemsFrom_keys _ _ _ _ E Hks). simpl. apply newKeys_fresh.
Qed.

(** What is shown after grouping and rendering a list is the list,
    rearranged by category. *)
Lemma grouped_shown_perm (items : list Item) (g : Groups) (w w' : World) :
  groupItems items = inr g ->
  renderRows g w = (inr tt, w') ->
  Permutation (shownItems (rowsEl w')) items.
Proof.
  intros Eg Er. rewrite (shown_is_groups _ _ _ Er).
  rewrite (Permutation_flat_map (groupOf g) (object_keys_perm g)).
  rewrite (groupOf_own_keys g (groupItems_NoDup _ _ Eg)).
  exact (groupItemsFrom_perm _ _ _ Eg).
Qed.

Lemma filterItems_filter (q : string) (items : list Item) :
  forall kept,
    filterItems q items = inr kept -> kept = filter (matches q) items.
Proof.
  induction items as [| i rest IH]; simpl; intros kept E.
  - inversion E. reflexivity.
  - unfold matches at 1.
    destruct (searchText i) as [e | text]; [discriminate |].
    destruct (filterItems q rest) as [e | kept']; [discriminate |].
    rewrite <- (IH _ eq_refl). inversion E. reflexivity.
Qed.

Lemma filterItems_total (q : string) (items : list Item) :
  Forall (fun x => exists text, searchText x = inr text) items ->
  filterItems q items = inr (filter (matches q) items).
Proof.
  induction 1 as [| i rest (text & Et) _ IH]; simpl; [reflexivity |].
  unfold matches at 1. rewrite Et, IH. reflexivity.
Qed.

Lemma renderAll_shows_cache (w w' : World) :
  renderAll w = (inr tt, w') ->
  Permutation (shownItems (rowsEl w')) (itemsCache w).
Proof.
  unfold renderAll, bind, gets, lift. intros E.
  destruct (renderHero (pickHero (itemsCache w)) w) as [[e | []] w1]; [discriminate |].
  destruct (groupItems (itemsCache w)) as [e | g] eqn:Eg; [discriminate |].
  exact (grouped_shown_perm _ _ _ _ Eg E).
Qed.

(** X6: when [renderAll] returns normally, the rows show every item of
    the cache exactly once. *)
Theorem unfiltered_view_shows_cache (w w' : World) :
  renderAll w = (inr tt, w') ->
  Permutation (shownItems (rowsEl w')) (itemsCache w) /\
  List.length (shownItems (rowsEl w')) = List.length (itemsCache w).
Proof.
  intros E. pose proof (renderAll_shows_cache _ _ E) as P.
  split; [exact P | exact (Permutation_length P)].
Qed.

(** X7: a search that rendered shows exactly the items of the cache
    whose text contains the lower-cased, trimmed search text, each once. *)
Theorem search_shows_all_matches (input : string) (w w' : World) :
  trim (toLowerCase input) <> ""%string ->
  onSearch input w = (inr tt, w') ->
  Permutation (shownItems (rowsEl w'))
    (filter (matches (trim (toLowerCase input))) (itemsCache w)).
Proof.
  intros Hq E. unfold onSearch in E.
  destruct (String.eqb_spec (trim (toLowerCase input)) "") as [Eq | _];
    [contradiction |].
  unfold bind, gets, lift in E.
  destruct (filterItems _ (itemsCache w)) as [e | filtered] eqn:Ef; [discriminate |].
  destruct (groupItems filtered) as [e | g] eqn:Eg; [discriminate |].
  rewrite <- (filterItems_filter _ _ _ Ef).
  exact (grouped_shown_perm _ _ _ _ Eg E).
Qed.

(** X8: a search that matches no item empties the rows and shows the
    message of the empty catalog. *)
Theorem search_without_match_shows_message (input : string) (w : World) :
  trim (toLowerCase input) <> ""%string ->
  Forall (fun x => exists text, searchText x = inr text) (itemsCache w) ->
  (forall x, In x (itemsCache w) -> matches (trim (toLowerCase input)) x = false) ->
  onSearch input w = (inr tt, withRows [NoContentMessage] w).
Proof.
  intros Hq Hconv Hnone. unfold onSearch.
  destruct (String.eqb_spec (trim (toLowerCase input)) "") as [Eq | _];
    [contradiction |].
  unfold bind, gets, lift. rewrite (filterItems_total _ _ Hconv).
  assert (Hempty : filter (matches (trim (toLowerCase input))) (itemsCache w) = []).
  { induction (itemsCache w) as [| x r IH]; simpl; [reflexivity |].
    rewrite (Hnone x (or_introl eq_refl)). apply IH.
    - inversion Hconv. assumption.
    - intros y Hy. apply Hnone. right. exact Hy. }
  rewrite Hempty. reflexivity.
Qed.

Lemma onSearch_sameData (input : string) (w : World) :
  sameData w (snd (onSearch input w)).
Proof.
  unfold onSearch. destruct (trim (toLowerCase input) =? "")%string.
  - apply renderAll_frame.
  - unfold bind, gets, lift.
    destruct (filterItems _ (itemsCache w)) as [e | filtered]; [repeat split |].
    destruct (groupItems filtered) as [e | g]; [repeat split |].
    apply renderRows_sameData.
Qed.

Lemma typing_sameData (inputs : list string) (w : World) :
  sameData w (typing inputs w).
Proof.
  unfold typing. revert w.
  induction inputs as [| input rest IH]; intros w; simpl; [repeat split |].
  exact (sameData_trans _ _ _ (onSearch_sameData input w) (IH _)).
Qed.

(** X9: searching never touches the store, the cache, the clock or the
    network: after any series of inputs they are as before, and nothing was
    added to the trace of requests. *)
Theorem searching_leaves_data_alone (inputs : list string) (w : World) :
  store (typing inputs w) = store w /\
  itemsCache (typing inputs w) = itemsCache w /\
  clock (typing inputs w) = clock w /\
  fetches (typing inputs w) = fetches w /\
  trace (typing inputs w) = trace w.
Proof.
  exact (typing_sameData inputs w).
Qed.

End Shown.

(** ** The search text *)

Section SearchText.
Context `{Host}.

Lemma lowerChar_idempotent (c : ascii) : lowerChar (lowerChar c) = lowerChar c.
Proof.
  destruct c as [[] [] [] [] [] [] [] []]; reflexivity.
Qed.

Lemma lowerChar_space (c : ascii) : isWhiteSpace (lowerChar c) = isWhiteSpace c.
Proof.
  destruct c as [[] [] [] [] [] [] [] []]; reflexivity.
Qed.

Lemma toLowerCase_idempotent (s : string) :
  toLowerCase (toLowerCase s) = toLowerCase s.
Proof.
  induction s as [| c r IH]; simpl; [| rewrite IH, lowerChar_idempotent];
    reflexivity.
Qed.

Lemma toLowerCase_trimStart (s : string) :
  toLowerCase (trimStart s) = trimStart (toLowerCase s).
Proof.
  induction s as [| c r IH]; simpl; [reflexivity |].
  rewrite lowerChar_space. destruct (isWhiteSpace c); [exact IH | reflexivity].
Qed.

Lemma toLowerCase_trimEnd (s : string) :
  toLowerCase (trimEnd s) = trimEnd (toLowerCase s).
Proof.
  induction s as [| c r IH]; simpl; [reflexivity |].
  rewrite <- IH, lowerChar_space.
  destruct (trimEnd r); simpl; [destruct (isWhiteSpace c) |]; reflexivity.
Qed.

Lemma trimEnd_idempotent (s : string) : trimEnd (trimEnd s) = trimEnd s.
Proof.
  induction s as [| c r IH]; simpl; [reflexivity |].
  destruct (trimEnd r) as [| x t] eqn:Er.
  - destruct (isWhiteSpace c) eqn:Ec; simpl; [| rewrite Ec]; reflexivity.
  - cbn [trimEnd]. cbn [trimEnd] in IH. rewrite IH. reflexivity.
Qed.

(** A string that starts with no white space. *)
Lemma trimStart_clean (s : string) :
  match trimStart s with
  | EmptyString => True
  | String c _ => isWhiteSpace c = false
  end.
Proof.
  induction s as [| c r IH]; simpl; [exact I |].
  destruct (isWhiteSpace c) eqn:Ec; [exact IH | exact Ec].
Qed.

Lemma trimStart_trimEnd (s : string) :
  match s with
  | EmptyString => True
  | String c _ => isWhiteSpace c = false
  end ->
  trimStart (trimEnd s) = trimEnd s.
Proof.
  destruct s as [| c r]; simpl; [reflexivity |]. intros Ec.
  destruct (trimEnd r); rewrite ?Ec; simpl; rewrite ?Ec; reflexivity.
Qed.

Lemma trim_idempotent (s : string) : trim (trim s) = trim s.
Proof.
  unfold trim.
  rewrite (trimStart_trimEnd (trimStart s) (trimStart_clean s)).
  apply trimEnd_idempotent.
Qed.

Lemma toLowerCase_trim (s : string) : toLowerCase (trim s) = trim (toLowerCase s).
Proof.
  unfold trim. rewrite toLowerCase_trimEnd, toLowerCase_trimStart. reflexivity.
Qed.

(** X10: the search does not depend on the case of the letters typed nor
    on the white space around them. *)
Theorem search_ignores_case_and_margins (input : string) (w : World) :
  onSearch (toLowerCase input) w = onSearch input w /\
  onSearch (trim input) w = onSearch input w.
Proof.
  unfold onSearch.
  rewrite toLowerCase_idempotent, toLowerCase_trim, trim_idempotent.
  split; reflexivity.
Qed.

End SearchText.

(** ** Start-up *)

Section StartUp.
Context `{Host}.

Lemma renderAll_empty (w : World) :
  itemsCache w = [] ->
  renderAll w =
  (inr tt,
   withRows [NoContentMessage]
     (withHero (mkHero "No content" "Add items via catalog.json in the repository"
                  "" "#e50914" (Some noContentHero)) w)).
Proof.
  intros Ec. unfold renderAll, bind, gets. rewrite Ec. reflexivity.
Qed.

Lemma seed_without_manifest (w : World) (e : Exn) :
  itemsCache w = [] ->
  manifest (fetchCatalog (fetches w)) = inl e ->
  seedFromCatalogIfEmpty w
    = (inr tt, logged (EvWarn e) (fetched (logged EvFetch w))).
Proof.
  intros Ec Em. rewrite (seed_run w Ec). cbv zeta.
  destruct (fetchCatalog (fetches w)) as [| | | catalog]; simpl in Em;
    try (inversion Em; reflexivity).
  rewrite Em. reflexivity.
Qed.

(** X11: a first visit whose catalog cannot be fetched, read or iterated
    ends normally: one fetch, one warning, no put, an empty cache, and the
    page shows the ['No content'] hero with the default accent and the
    message of the empty catalog. *)
Theorem first_visit_without_manifest (w : World) (s : Store) (e : Exn) :
  idb_getAll (store w) = (inr [], s) ->
  manifest (fetchCatalog (fetches w)) = inl e ->
  exists w',
    init w = (inr tt, w') /\
    trace w' = trace w ++ [EvGetAll; EvFetch; EvWarn e] /\
    store w' = s /\
    itemsCache w' = [] /\
    rowsEl w' = [NoContentMessage] /\
    heroTitle (heroEl w') = "No content"%string /\
    heroAccent (heroEl w') = "#e50914"%string.
Proof.
  intros Eg Em.
  set (wl := withCache [] (withStore s (logged EvGetAll w))).
  assert (El : loadItems w = (inr tt, wl)).
  { unfold loadItems, bind, idbGetAll, modify. rewrite Eg. reflexivity. }
  assert (Es : seedFromCatalogIfEmpty wl
               = (inr tt, logged (EvWarn e) (fetched (logged EvFetch wl)))).
  { apply seed_without_manifest; [reflexivity | exact Em]. }
  eexists. split.
  - unfold init, bind. rewrite El, Es. apply renderAll_empty. reflexivity.
  - simpl. rewrite <- !app_assoc. repeat split.
Qed.

(** X12: when the store cannot be read at start-up, [init] rejects with
    the error of the store: nothing is fetched, put, cached or rendered. *)
Theorem start_up_rejects_on_store_error (w : World) (s : Store) (e : Exn) :
  idb_getAll (store w) = (inl e, s) ->
  init w = (inl e, withStore s (logged EvGetAll w)).
Proof.
  intros Eg. unfold init, bind, loadItems, bind, idbGetAll. rewrite Eg.
  reflexivity.
Qed.

(** A loop that came to its end put one item per record. *)
Lemma seedLoop_complete (records : list value) :
  forall w w',
    seedLoop records w = (inr tt, w') ->
    exists items,
      trace w' = trace w ++ map EvPut items /\
      Forall2 (fun it item =>
                 item = itemOf (id item) it /\
                 (lacksId it = false -> id item = propOf it "id"))
              records items /\
      clock w' = clock w + List.length (filter lacksId records).
Proof.
  induction records as [| it rest IH]; intros w w' E; simpl in E.
  - inversion E. subst. exists []. simpl. rewrite app_nil_r.
    repeat split; [constructor | lia].
  - unfold bind in E.
    destruct (normalizeRecord it w) as [[e | item] w1] eqn:En; [discriminate |].
    unfold idbPut in E.
    destruct (idb_put item (store w1)) as [[e | []] s]; [discriminate |].
    apply IH in E. destruct E as (items & Ht & F & Hc).
    destruct (normalizeRecord_world _ _ _ _ En) as [Hw Hclock].
    specialize (Hclock _ eq_refl).
    assert (Ht1 : trace w1 = trace w) by (destruct Hw as [-> | ->]; reflexivity).
    exists (item :: items). simpl in *. split; [| split].
    + rewrite Ht, Ht1, <- app_assoc. reflexivity.
    + constructor; [| exact F]. split.
      * exact (normalizeRecord_fields _ _ _ _ En).
      * intros Hl. revert En. rewrite normalizeRecord_run.
        unfold lacksId, propOf in *.
        destruct (getProp it "id") as [e | rawId]; [discriminate |].
        apply negb_false_iff in Hl. rewrite Hl.
        intros En. inversion En. reflexivity.
    + rewrite Hc, Hclock. destruct (lacksId it); simpl; lia.
Qed.

(** X13: when the seeding loop comes to its end it has put exactly one
    item per record of the catalog, in the order of the catalog, each the
    normalization of its record (with the record's own id when that is
    truthy), and it has read the clock once per record without such an id. *)
Theorem seeding_puts_one_item_per_record (records : list value) (w w' : World) :
  seedLoop records w = (inr tt, w') ->
  exists items,
    trace w' = trace w ++ map EvPut items /\
    List.length items = List.length records /\
    Forall2 (fun it item =>
               item = itemOf (id item) it /\
               (lacksId it = false -> id item = propOf it "id"))
            records items /\
    clock w' = clock w + List.length (filter lacksId records).
Proof.
  intros E. destruct (seedLoop_complete _ _ _ E) as (items & Ht & F & Hc).
  exists items. repeat split; try assumption.
  symmetry. exact (Forall2_length F).
Qed.

End StartUp.

(** ** Derived ids *)

Section DerivedIds.
Context `{Host}.

Lemma slugChar_not_dash (c : ascii) :
  isSlugChar c = true -> Ascii.eqb c "-" = false.
Proof.
  destruct c as [[] [] [] [] [] [] [] []]; simpl; intros E;
    try reflexivity; discriminate E.
Qed.

Lemma replaceRuns_chars (s : string) :
  forall inRun, allChars isIdChar (replaceRuns inRun s) = true.
Proof.
  induction s as [| c r IH]; intros inRun; simpl; [reflexivity |].
  destruct (isSlugChar c) eqn:Ec; simpl.
  - unfold isIdChar at 1. rewrite Ec. simpl. apply IH.
  - destruct inRun; simpl; apply IH.
Qed.

Lemma replaceRuns_dashes (s : string) :
  forall inRun,
    noDoubleDash (replaceRuns inRun s) = true /\
    (inRun = true -> startsWithDash (replaceRuns inRun s) = false).
Proof.
  induction s as [| c r IH]; intros inRun; simpl; [auto |].
  destruct (isSlugChar c) eqn:Ec.
  - destruct (IH false) as [Hn _]. simpl.
    rewrite (slugChar_not_dash c Ec), Hn. auto.
  - destruct (IH true) as [Hn Hs]. destruct inRun; [auto |].
    simpl. rewrite (Hs eq_refl), Hn. split; [reflexivity | discriminate].
Qed.

(** A string of letters, digits and single dashes is its own slug. *)
Lemma replaceRuns_fixed (s : string) :
  allChars isIdChar s = true ->
  noDoubleDash s = true ->
  replaceRuns false s = s /\
  (startsWithDash s = false -> replaceRuns true s = s).
Proof.
  induction s as [| c r IH]; simpl; [auto |].
  intros Hc Hd. apply andb_true_iff in Hc. destruct Hc as [Hc Hr].
  apply andb_true_iff in Hd. destruct Hd as [Hcd Hd].
  destruct (IH Hr Hd) as [Hf Ht].
  destruct (isSlugChar c) eqn:Ec.
  - rewrite Hf. auto.
  - unfold isIdChar in Hc. rewrite Ec in Hc. simpl in Hc. rewrite Hc in Hcd.
    simpl in Hcd. apply negb_true_iff in Hcd. rewrite (Ht Hcd).
    apply Ascii.eqb_eq in Hc. subst c. split; [reflexivity | discriminate].
Qed.

Lemma allChars_app (p : ascii -> bool) (a b : string) :
  allChars p (a ++ b) = allChars p a && allChars p b.
Proof.
  induction a as [| c r IH]; simpl; [reflexivity |].
  rewrite IH, andb_assoc. reflexivity.
Qed.

Lemma decimal_chars (n : N) : allChars isIdChar (decimal n) = true.
Proof.
  unfold decimal. induction (N.to_uint n); simpl; auto.
Qed.

(** X14: the slug of a title is made of lower-case letters, digits and
    single dashes, and is its own slug; an id that normalization derives is
    made of lower-case letters, digits and dashes only. *)
Theorem derived_ids_are_plain (title0 : string) :
  allChars isIdChar (slug title0) = true /\
  noDoubleDash (slug title0) = true /\
  slug (slug title0) = slug title0 /\
  (forall it w item w',
      normalizeRecord it w = (inr item, w') ->
      lacksId it = true ->
      exists text, id item = VStr text /\ allChars isIdChar text = true).
Proof.
  unfold slug. split; [apply replaceRuns_chars |].
  split; [apply replaceRuns_dashes |]. split.
  - apply replaceRuns_fixed; [apply replaceRuns_chars | apply replaceRuns_dashes].
  - intros it w item w' E Hl. revert E. rewrite normalizeRecord_run.
    unfold lacksId, propOf in Hl.
    destruct (getProp it "id") as [e | rawId]; [discriminate |].
    apply negb_true_iff in Hl. rewrite Hl.
    destruct (truthy (propOf it "title")).
    + destruct (callToLowerCase (propOf it "title")) as [e | low]; [discriminate |].
      intros E. inversion E. eexists. split; [reflexivity |].
      unfold slug. rewrite allChars_app, replaceRuns_chars. simpl. apply decimal_chars.
    + intros E. inversion E. eexists. split; [reflexivity |].
      simpl. apply decimal_chars.
Qed.

End DerivedIds.

(** ** The player *)

Section PlayerFacts.
Context `{Host}.

Lemma revokeCurrent_keeps (p : Player) :
  modalHidden (revokeCurrent p) = modalHidden p /\
  ariaHidden (revokeCurrent p) = ariaHidden p /\
  modalTitle (revokeCurrent p) = modalTitle p /\
  modalMeta (revokeCurrent p) = modalMeta p /\
  videoSrc (revokeCurrent p) = videoSrc p /\
  videoPlaying (revokeCurrent p) = videoPlaying p /\
  alerts (revokeCurrent p) = alerts p.
Proof.
  unfold revokeCurrent. destruct (currentPlayUrl p) as [url |]; [| repeat split].
  destruct (url =? "")%string; repeat split.
Qed.

(** [openPlayer] on an item whose first source has a [url]. *)
Lemma openPlayer_first (plays : string -> bool) (item : Item) (p : Player)
    (first : value) (rest : list value) (url : value) (src t y c d : string) :
  sources item = VArr (first :: rest) ->
  getProp first "url" = inr url ->
  coerce url = inr src ->
  innerTextOf (title item) = inr t ->
  coerce (orElse (year item) (VStr "")) = inr y ->
  coerce (orElse (category item) (VStr "")) = inr c ->
  coerce (orElse (description item) (VStr "")) = inr d ->
  exists p',
    openPlayer plays item p = (inr tt, p') /\
    videoSrc p' = src /\
    modalHidden p' = false /\
    ariaHidden p' = false /\
    videoPlaying p' = plays src /\
    modalTitle p' = t /\
    modalMeta p' = (y, c, d) /\
    alerts p' = alerts p.
Proof.
  intros Es Eu Ec Et Ey Ecat Ed. unfold openPlayer, playable.
  rewrite Es. cbn [truthy lengthTruthy firstOf hd List.length Nat.eqb negb andb].
  rewrite Et, Ey, Ecat, Ed, Eu, Ec.
  eexists. split; [reflexivity |]. cbn.
  match goal with
  | |- context [revokeCurrent ?q] =>
      destruct (revokeCurrent_keeps q) as (_ & _ & Ht' & Hm & _ & _ & Ha)
  end.
  rewrite Ht', Hm, Ha. repeat split.
Qed.

(** X15: a record that has neither [sources] nor [source] becomes an
    item without sources: a click on its card only raises the alert, and the
    play button of the hero does nothing at all. *)
Theorem record_without_sources_is_unplayable (it : value) (w w' : World)
    (item : Item) :
  normalizeRecord it w = (inr item, w') ->
  truthy (propOf it "sources") = false ->
  truthy (propOf it "source") = false ->
  sources item = VArr [] /\
  forall plays p,
    openPlayer plays item p = (inr tt, alert "No playable source for this item." p) /\
    handle plays (ClickPlayHero item) p = p.
Proof.
  intros E Hs Hl.
  assert (Esrc : sources item = VArr []).
  { rewrite (normalizeRecord_fields _ _ _ _ E). simpl.
    rewrite (orElse_falsy _ _ Hs), Hl. reflexivity. }
  split; [exact Esrc |]. intros plays p.
  unfold handle, openPlayer, playable. rewrite Esrc. split; reflexivity.
Qed.

(** X16: a record with the legacy [source] and no [sources] becomes an
    item whose sources are that one source, and a click on its card plays
    the [url] of that source. *)
Theorem legacy_source_is_played (plays : string -> bool) (it : value)
    (w w' : World) (item : Item) (p : Player)
    (o : list (string * value)) (src t y c d : string) :
  normalizeRecord it w = (inr item, w') ->
  truthy (propOf it "sources") = false ->
  propOf it "source" = VObj o ->
  ownProp "url" o = Some (VStr src) ->
  innerTextOf (title item) = inr t ->
  coerce (orElse (year item) (VStr "")) = inr y ->
  coerce (orElse (category item) (VStr "")) = inr c ->
  coerce (orElse (description item) (VStr "")) = inr d ->
  sources item = VArr [VObj o] /\
  exists p',
    handle plays (ClickItem item) p = p' /\
    videoSrc p' = src /\
    modalHidden p' = false /\
    videoPlaying p' = plays src.
Proof.
  intros E Hs Hl Hu Et Ey Ec Ed.
  assert (Esrc : sources item = VArr [VObj o]).
  { rewrite (normalizeRecord_fields _ _ _ _ E). simpl.
    rewrite (orElse_falsy _ _ Hs), Hl. reflexivity. }
  split; [exact Esrc |].
  destruct (openPlayer_first plays item p (VObj o) [] (VStr src) src t y c d)
    as (p' & Eo & Hsrc & Hh & _ & Hp & _); try assumption.
  - simpl. rewrite Hu. reflexivity.
  - reflexivity.
  - exists p'. unfold handle. rewrite Eo. auto.
Qed.

Lemma openPlayer_tidy (plays : string -> bool) (item : Item) (p : Player) :
  tidy p ->
  tidy (snd (openPlayer plays item p)) /\
  revoked (snd (openPlayer plays item p)) = revoked p.
Proof.
  intros (Ha & Hp & Hu). unfold openPlayer.
  destruct (negb (playable item)); [repeat split; assumption |].
  destruct (innerTextOf (title item)) as [e | t]; [repeat split; assumption |].
  destruct (coerce (orElse (year item) (VStr ""))) as [e | y];
    [repeat split; assumption |].
  destruct (coerce (orElse (category item) (VStr ""))) as [e | c];
    [repeat split; assumption |].
  destruct (coerce (orElse (description item) (VStr ""))) as [e | d];
    [repeat split; assumption |].
  unfold revokeCurrent. cbn [currentPlayUrl]. rewrite Hu.
  destruct (getProp (firstOf (sources item)) "url") as [e | url];
    [repeat split; assumption |].
  destruct (coerce url) as [e | src]; repeat split; try assumption.
Qed.

Lemma closeModal_tidy (p : Player) :
  tidy p -> tidy (closeModal p) /\ revoked (closeModal p) = revoked p.
Proof.
  intros (Ha & Hp & Hu). unfold closeModal, revokeCurrent.
  cbn [currentPlayUrl]. rewrite Hu. repeat split. discriminate.
Qed.

Lemma handle_tidy (plays : string -> bool) (g : Gesture) (p : Player) :
  tidy p -> tidy (handle plays g p) /\ revoked (handle plays g p) = revoked p.
Proof.
  intros T. destruct g as [item | item | | key]; simpl.
  - exact (openPlayer_tidy plays item p T).
  - destruct (playable item); [exact (openPlayer_tidy plays item p T) | auto].
  - exact (closeModal_tidy p T).
  - destruct (key =? "Escape")%string; [exact (closeModal_tidy p T) | auto].
Qed.

(** X17: whatever the user clicks and presses, from a tidy player on, the
    class of the modal and its [aria-hidden] agree, a video plays only while
    the modal is shown, no object URL is ever held and [URL.revokeObjectURL]
    is never called; and closing, by the button, the backdrop or Escape,
    leaves the modal hidden and the video paused without source. *)
Theorem player_stays_tidy (plays : string -> bool) (gestures : list Gesture)
    (p : Player) :
  tidy p ->
  tidy (handleAll plays gestures p) /\
  revoked (handleAll plays gestures p) = revoked p /\
  (forall closing,
      closing = ClickClose \/ closing = PressKey "Escape" ->
      let q := handle plays closing (handleAll plays gestures p) in
      modalHidden q = true /\ videoSrc q = ""%string /\ videoPlaying q = false).
Proof.
  intros T.
  assert (Hall : tidy (handleAll plays gestures p) /\
                 revoked (handleAll plays gestures p) = revoked p).
  { unfold handleAll. revert p T.
    induction gestures as [| g rest IH]; intros p T; simpl; [auto |].
    destruct (handle_tidy plays g p T) as [T1 R1].
    destruct (IH _ T1) as [T2 R2]. split; [exact T2 | congruence]. }
  destruct Hall as [T' R']. split; [exact T' |]. split; [exact R' |].
  destruct T' as (_ & _ & Hu).
  intros closing [-> | ->]; simpl; unfold closeModal, revokeCurrent;
    cbn [currentPlayUrl]; rewrite Hu; repeat split.
Qed.

End PlayerFacts.

(** ** One rendering replaces another *)

Section Replacing.
Context `{Host}.

Lemma rowLoop_uniform (fuel : nat) (cat : string) (raw : list (option Item)) :
  forall start w1 w2,
    rowsEl w1 = rowsEl w2 ->
    fst (rowLoop fuel cat raw start w1) = fst (rowLoop fuel cat raw start w2) /\
    rowsEl (snd (rowLoop fuel cat raw start w1))
      = rowsEl (snd (rowLoop fuel cat raw start w2)).
Proof.
  induction fuel as [| f IH]; intros start w1 w2 Er; simpl; [auto |].
  destruct (start <? List.length raw)%nat; [| auto].
  unfold bind, lift, modify.
  destruct (makeCards _) as [e | cards]; [auto |].
  apply IH. unfold appendRow. simpl. rewrite Er. reflexivity.
Qed.

Lemma renderCategories_uniform (grouped : Groups) (keys : list string) :
  forall w1 w2,
    rowsEl w1 = rowsEl w2 ->
    fst (renderCategories grouped keys w1) = fst (renderCategories grouped keys w2) /\
    rowsEl (snd (renderCategories grouped keys w1))
      = rowsEl (snd (renderCategories grouped keys w2)).
Proof.
  induction keys as [| cat rest IH]; intros w1 w2 Er; simpl; [auto |].
  destruct (ownGroup cat grouped) as [group |]; [| auto].
  unfold bind.
  destruct (rowLoop_uniform (List.length (padRaw group)) cat (padRaw group) 0 w1 w2 Er)
    as [Hf Hr].
  destruct (rowLoop _ cat (padRaw group) 0 w1) as [[e1 | []] v1];
    destruct (rowLoop _ cat (padRaw group) 0 w2) as [[e2 | []] v2];
    simpl in Hf, Hr; try discriminate.
  - split; [exact Hf | exact Hr].
  - apply IH. exact Hr.
Qed.

(** What [renderRows] leaves in [#rows], and whether it throws, depends on
    the groups only. *)
Lemma renderRows_uniform (grouped : Groups) (w1 w2 : World) :
  fst (renderRows grouped w1) = fst (renderRows grouped w2) /\
  rowsEl (snd (renderRows grouped w1)) = rowsEl (snd (renderRows grouped w2)).
Proof.
  unfold renderRows, bind, modify.
  destruct (objectKeys grouped) as [| k ks]; [auto |].
  apply renderCategories_uniform. reflexivity.
Qed.

Lemma renderHero_uniform (item : Item) (w1 w2 : World) :
  fst (renderHero item w1) = fst (renderHero item w2) /\
  (fst (renderHero item w1) = inr tt ->
   heroEl (snd (renderHero item w1)) = heroEl (snd (renderHero item w2))).
Proof.
  unfold renderHero, bind, lift, modify.
  destruct (coerce (orElse (title item) _)); simpl; [split; [auto | discriminate] |].
  destruct (coerce (orElse (description item) _)); simpl;
    [split; [auto | discriminate] |].
  destruct (coerce (orElse (poster item) _)); simpl;
    [split; [auto | discriminate] |].
  destruct (coerce (orElse (themeColor item) _)); simpl;
    [split; [auto | discriminate] | auto].
Qed.

Lemma onSearch_uniform (input : string) (w1 w2 : World) :
  itemsCache w1 = itemsCache w2 ->
  fst (onSearch input w1) = fst (onSearch input w2) /\
  (fst (onSearch input w1) = inr tt ->
   rowsEl (snd (onSearch input w1)) = rowsEl (snd (onSearch input w2))).
Proof.
  intros Ec. unfold onSearch.
  destruct (trim (toLowerCase input) =? "")%string.
  - unfold renderAll, bind, gets, lift. rewrite Ec.
    destruct (renderHero_uniform (pickHero (itemsCache w2)) w1 w2) as [Hf _].
    destruct (renderHero _ w1) as [[e1 | []] v1];
      destruct (renderHero _ w2) as [[e2 | []] v2]; simpl in Hf; try discriminate.
    + split; [exact Hf | discriminate].
    + destruct (groupItems (itemsCache w2)) as [e | g]; simpl;
        [split; [auto | discriminate] |].
      destruct (renderRows_uniform g v1 v2) as [Hr Hrows]. auto.
  - unfold bind, gets, lift. rewrite Ec.
    destruct (filterItems _ (itemsCache w2)) as [e | filtered]; simpl;
      [split; [auto | discriminate] |].
    destruct (groupItems filtered) as [e | g]; simpl;
      [split; [auto | discriminate] |].
    destruct (renderRows_uniform g w1 w2) as [Hr Hrows]. auto.
Qed.

(** X18: the rows on display are those of the last search alone: a search
    that renders after any series of earlier inputs leaves the rows that the
    same search leaves when it comes first. *)
Theorem last_search_wins (inputs : list string) (input : string) (w w' : World) :
  onSearch input (typing inputs w) = (inr tt, w') ->
  exists v,
    onSearch input w = (inr tt, v) /\ rowsEl v = rowsEl w'.
Proof.
  intros E.
  destruct (typing_sameData inputs w) as (_ & Hc & _).
  destruct (onSearch_uniform input (typing inputs w) w Hc) as [Hf Hr].
  rewrite E in Hf, Hr. simpl in Hf, Hr.
  exists (snd (onSearch input w)). split.
  - destruct (onSearch input w) as [r v]. simpl in *. subst r. reflexivity.
  - symmetry. exact (Hr eq_refl).
Qed.

(** X19: after a start-up that ended normally the rows show every item of
    the cache exactly once, whatever was seeded or loaded. *)
Theorem start_up_shows_cache (w w' : World) :
  init w = (inr tt, w') ->
  Permutation (shownItems (rowsEl w')) (itemsCache w') /\
  List.length (shownItems (rowsEl w')) = List.length (itemsCache w').
Proof.
  unfold init, bind. intros E.
  destruct (loadItems w) as [[e | []] w1]; [discriminate |].
  destruct (seedFromCatalogIfEmpty w1) as [[e | []] w2]; [discriminate |].
  pose proof (renderAll_shows_cache _ _ E) as P.
  destruct (renderAll_frame w2) as [(_ & Hc & _) _].
  rewrite E in Hc. simpl in Hc. rewrite Hc.
  split; [exact P | exact (Permutation_length P)].
Qed.

End Replacing.

(** ** The further properties on sample sessions *)

Lemma grouping_keeps_order_witness :
  let g := [("Crime"%string, [film "f1" "Heat" "Crime" VNull; film "f3" "Ronin" "Crime" VNull]);
            ("Horror"%string, [film "f2" "Alien" "Horror" VNull])] in
  groupItems threeFilms = inr g /\
  groupOf g "Crime" = filter (hasKey "Crime") threeFilms /\
  NoDup (map fst g).
Proof.
  intros g.
  assert (E : groupItems threeFilms = inr g) by reflexivity.
  destruct (grouping_keeps_order threeFilms g E) as (Hg & _ & Hn).
  split; [exact E |]. split; [exact (Hg "Crime"%string) | exact Hn].
Defined.

Lemma rows_headed_by_category_witness :
  let grouped := [("Drama"%string, dramas 9)] in
  let w := browsing (dramas 9) in
  let w' := snd (renderRows grouped w) in
  renderRows grouped w = (inr tt, w') /\
  exists blocks,
    sections (rowsEl w') = List.concat blocks /\
    Forall2 (fun cat block =>
               forall j row,
                 nth_error block j = Some row ->
                 heading row = if (j =? 0)%nat then cat else (cat ++ " (more)")%string)
            (objectKeys grouped) blocks.
Proof.
  intros grouped w w'.
  assert (E : renderRows grouped w = (inr tt, w')) by reflexivity.
  split; [exact E | exact (rows_headed_by_category grouped w w' E)].
Defined.

Lemma rendering_shows_groups_witness :
  let grouped := [("Drama"%string, dramas 9)] in
  let w := browsing (dramas 9) in
  let w' := snd (renderRows grouped w) in
  renderRows grouped w = (inr tt, w') /\
  shownItems (rowsEl w') = flat_map (groupOf grouped) (objectKeys grouped).
Proof.
  intros grouped w w'.
  assert (E : renderRows grouped w = (inr tt, w')) by reflexivity.
  split; [exact E | exact (proj1 (rendering_shows_groups_in_order grouped w w' E))].
Defined.

Lemma unfiltered_view_witness :
  let w := browsing threeFilms in
  let w' := snd (renderAll w) in
  renderAll w = (inr tt, w') /\
  List.length (shownItems (rowsEl w')) = List.length (itemsCache w).
Proof.
  intros w w'.
  assert (E : renderAll w = (inr tt, w')) by reflexivity.
  split; [exact E | exact (proj2 (unfiltered_view_shows_cache w w' E))].
Defined.

Lemma search_shows_all_matches_witness :
  let w := browsing threeFilms in
  let w' := snd (onSearch "crime" w) in
  trim (toLowerCase "crime") <> ""%string /\
  onSearch "crime" w = (inr tt, w') /\
  Permutation (shownItems (rowsEl w'))
    (filter (matches (trim (toLowerCase "crime"))) (itemsCache w)).
Proof.
  intros w w'.
  assert (Hq : trim (toLowerCase "crime") <> ""%string) by (vm_compute; discriminate).
  assert (E : onSearch "crime" w = (inr tt, w')) by reflexivity.
  split; [exact Hq |]. split; [exact E |].
  exact (search_shows_all_matches "crime" w w' Hq E).
Defined.

Lemma search_without_match_witness :
  let w := browsing threeFilms in
  trim (toLowerCase "western") <> ""%string /\
  onSearch "western" w = (inr tt, withRows [NoContentMessage] w).
Proof.
  intros w.
  assert (Hq : trim (toLowerCase "western") <> ""%string) by (vm_compute; discriminate).
  split; [exact Hq |].
  apply (search_without_match_shows_message "western" w Hq).
  - repeat (apply Forall_cons; [eexists; reflexivity |]). apply Forall_nil.
  - intros x [<- | [<- | [<- | []]]]; reflexivity.
Defined.

Lemma first_visit_without_manifest_witness :
  let w := firstVisit offlineHost [] in
  exists w',
    init w = (inr tt, w') /\
    trace w' = [EvGetAll; EvFetch; EvWarn FetchRejected] /\
    rowsEl w' = [NoContentMessage] /\
    heroTitle (heroEl w') = "No content"%string.
Proof.
  intros w.
  destruct (first_visit_without_manifest w [] FetchRejected eq_refl eq_refl)
    as (w' & E & Ht & _ & _ & Hr & Hh & _).
  exists w'. repeat split; assumption.
Defined.

Lemma seeding_puts_one_item_per_record_witness :
  let w := fetched (logged EvFetch (firstVisit (twinsHost tickingClock) [])) in
  let records := [VObj []; VObj []] in
  let w' := snd (seedLoop records w) in
  seedLoop records w = (inr tt, w') /\
  exists items,
    trace w' = trace w ++ map EvPut items /\ List.length items = 2.
Proof.
  intros w records w'.
  assert (E : seedLoop records w = (inr tt, w')) by reflexivity.
  split; [exact E |].
  destruct (seeding_puts_one_item_per_record records w w' E)
    as (items & Ht & Hl & _).
  exists items. split; [exact Ht | exact Hl].
Defined.

Lemma start_up_rejects_witness :
  let w := firstVisit unreadableHost [] in
  init w = (inl (IDBError "UnknownError"), withStore (store w) (logged EvGetAll w)).
Proof.
  intros w.
  exact (start_up_rejects_on_store_error w (store w) (IDBError "UnknownError") eq_refl).
Defined.

Lemma record_without_sources_witness :
  let w := firstVisit alphaHost [] in
  let item := alphaAt "1700000000000" in
  normalizeRecord alphaRecord w = (inr item, tick w) /\
  openPlayer alwaysPlays item closedPlayer
    = (inr tt, alert "No playable source for this item." closedPlayer).
Proof.
  intros w item.
  assert (E : normalizeRecord alphaRecord w = (inr item, tick w)) by reflexivity.
  split; [exact E |].
  exact (proj1 (proj2 (record_without_sources_is_unplayable alphaRecord w (tick w)
                         item E eq_refl eq_refl) alwaysPlays closedPlayer)).
Defined.

Lemma legacy_source_is_played_witness :
  let w := firstVisit quietHost [] in
  let item := itemOf (VStr "v1") legacyRecord in
  normalizeRecord legacyRecord w = (inr item, w) /\
  sources item = VArr [VObj [("url"%string, VStr "alpha.mp4")]] /\
  exists p',
    handle alwaysPlays (ClickItem item) closedPlayer = p' /\
    videoSrc p' = "alpha.mp4"%string.
Proof.
  intros w item.
  assert (E : normalizeRecord legacyRecord w = (inr item, w)) by reflexivity.
  split; [exact E |].
  destruct (legacy_source_is_played alwaysPlays legacyRecord w w item closedPlayer
              [("url"%string, VStr "alpha.mp4")] "alpha.mp4" "Alpha" ""
              "Uncategorized" "" E eq_refl eq_refl eq_refl eq_refl eq_refl
              eq_refl eq_refl)
    as (Hs & p' & Hp & Hv & _).
  split; [exact Hs |]. exists p'. split; [exact Hp | exact Hv].
Defined.

Lemma player_stays_tidy_witness :
  let item := itemOf (VStr "v1") legacyRecord in
  let gestures := [ClickItem item; PressKey "Escape"; ClickItem item] in
  tidy closedPlayer /\
  tidy (handleAll alwaysPlays gestures closedPlayer).
Proof.
  intros item gestures.
  assert (T : tidy closedPlayer).
  { split; [reflexivity |]. split; [discriminate | reflexivity]. }
  split; [exact T |].
  exact (proj1 (player_stays_tidy alwaysPlays gestures closedPlayer T)).
Defined.

Lemma last_search_wins_witness :
  let w := browsing threeFilms in
  let w' := snd (onSearch "crime" (typing ["al"; "alien"]%string w)) in
  onSearch "crime" (typing ["al"; "alien"]%string w) = (inr tt, w') /\
  exists v, onSearch "crime" w = (inr tt, v) /\ rowsEl v = rowsEl w'.
Proof.
  intros w w'.
  assert (E : onSearch "crime" (typing ["al"; "alien"]%string w) = (inr tt, w'))
    by reflexivity.
  split; [exact E | exact (last_search_wins _ "crime" w w' E)].
Defined.

Lemma start_up_shows_cache_witness :
  let w := browsing threeFilms in
  let w' := snd (init w) in
  init w = (inr tt, w') /\
  List.length (shownItems (rowsEl w')) = List.length (itemsCache w').
Proof.
  intros w w'.
  assert (E : init w = (inr tt, w')) by reflexivity.
  split; [exact E | exact (proj2 (start_up_shows_cache w w' E))].
Defined.
